(** * hotspot-bpf: the in-kernel aggregation programs

    A shallow embedding of [src/bpf/cpu_hotspot.c] (the [sched_switch]
    tracepoint program) and [src/bpf/memory_faults.c] (the
    [handle_mm_fault] kprobe program), and the properties of their
    accumulation tables.

    Conventions.
    - A [u32]/[u64] is a [Z] with the wrap-around written out ([to_u32],
      [to_u64]).  A C conversion to an unsigned type is the wrap.
    - A [char] buffer is a [list byte]; a pointer into a map value is the
      value itself, and a store through it is an [insert] at its key.  Where
      two CPUs run [record_fault] at once, a pointer is the key, and every
      load and store through it is a step of its own.
    - [BPF_MAP_TYPE_HASH] is a [gmap] with a capacity, the per-CPU array a
      function from the CPU number to its slot.
    - The kernel side (clock, current task, cgroup objects, helpers) is the
      record [kernel.t] an invocation runs against.  The helpers follow the
      kernel's documented contracts (bpf-helpers(7)). *)

From Stdlib Require Import ZArith Lia List.
From Stdlib Require Import Strings.Byte Strings.String.
From stdpp Require Import base option list gmap functions.

Local Open Scope Z_scope.

(** ** Machine integers *)

Definition to_u32 (z : Z) : Z := z mod 2 ^ 32.
Definition to_u64 (z : Z) : Z := z mod 2 ^ 64.

Definition EINVAL : Z := 22.
Definition EFAULT : Z := 14.
Definition E2BIG : Z := 7.

(** ** Byte buffers *)

#[global] Instance byte_eq_dec : EqDecision byte := Byte.byte_eq_dec.

(** ['\0'] *)
Definition NUL : byte := x00.

(** [__builtin_memset(dst, 0, len)] *)
Definition memset0 (dst : list byte) (len : nat) : list byte :=
  replicate len NUL ++ drop len dst.

(** The bytes of the C string that starts at the head of [s]: everything
    before the first NUL. *)
Fixpoint cstr (s : list byte) : list byte :=
  match s with
  | [] => []
  | b :: r => if decide (b = NUL) then [] else b :: cstr r
  end.

(** [buf[0] == '\0'] on a buffer of at least one byte. *)
Definition first_is_nul (buf : list byte) : bool :=
  bool_decide (default NUL (buf !! 0%nat) = NUL).

(** ** Kernel objects (vmlinux.h), as far as the programs read them *)

(** What a [const char *] read from a kernel object leads to: memory that
    faults when read, or a readable NUL-terminated string.  A NULL
    pointer is the [None] of the field that holds it. *)
Inductive kstr : Type :=
  | kstr_fault
  | kstr_at (s : list byte).

Set Warnings "-register-all".
Module kernfs_node.
Inductive t : Type := mk { name : option kstr; parent : option t }.
End kernfs_node.
Set Warnings "register-all".

Module cgroup.
Record t : Type := mk { kn : option kernfs_node.t }.
End cgroup.

Module css_set.
Record t : Type := mk { dfl_cgrp : option cgroup.t }.
End css_set.

Module task_struct.
Record t : Type := mk {
  pid : Z;
  tgid : Z;
  comm : list byte;
  cgroups : option css_set.t
}.
End task_struct.

(** [struct trace_event_raw_sched_switch]: the two [pid_t] fields the
    program reads. *)
Module trace_event_raw_sched_switch.
Record t : Type := mk { prev_pid : Z; next_pid : Z }.
End trace_event_raw_sched_switch.

(** The kernel as one invocation of a program sees it. *)
Module kernel.
Record t : Type := mk {
  ktime_ns : Z;                        (* the monotonic clock *)
  cpu : nat;                           (* the CPU the program runs on *)
  current : option task_struct.t       (* the task running on it *)
}.
End kernel.

(** ** BPF helpers *)

Definition bpf_ktime_get_ns (k : kernel.t) : Z := to_u64 (kernel.ktime_ns k).

Definition bpf_get_current_task_btf (k : kernel.t) : option task_struct.t :=
  kernel.current k.

(** [current->tgid << 32 | current->pid], or [-EINVAL] without a task. *)
Definition bpf_get_current_pid_tgid (k : kernel.t) : Z :=
  match kernel.current k with
  | None => to_u64 (- EINVAL)
  | Some t =>
      Z.lor (Z.shiftl (to_u32 (task_struct.tgid t)) 32) (to_u32 (task_struct.pid t))
  end.

(** [strscpy_pad(buf, src, size)]: the string, cut to [size - 1] bytes, then
    NUL up to [size]. *)
Definition strscpy_pad (buf src : list byte) (size : nat) : list byte :=
  let body := take (size - 1) (cstr src) in
  body ++ replicate (size - length body) NUL ++ drop size buf.

(** [bpf_get_current_comm(buf, size)]: return code and the buffer after. *)
Definition bpf_get_current_comm (k : kernel.t) (buf : list byte) (size : nat)
  : Z * list byte :=
  match kernel.current k with
  | None => (- EINVAL, memset0 buf size)
  | Some t => (0, strscpy_pad buf (task_struct.comm t) size)
  end.

(** [bpf_core_read_str(dst, len, src)], that is [bpf_probe_read_kernel_str]:
    copies the string with its NUL, at most [len] bytes in all, and returns
    the number of bytes written INCLUDING the NUL (so at least 1); on a fault
    it zeroes [dst] and returns [-EFAULT].  Bytes of [dst] after the NUL are
    left as they were. *)
Definition bpf_core_read_str (dst : list byte) (len : nat) (src : kstr)
  : Z * list byte :=
  match len with
  | O => (0, dst)
  | S n =>
      match src with
      | kstr_fault => (- EFAULT, memset0 dst len)
      | kstr_at s =>
          let body := take n (cstr s) in
          (Z.of_nat (S (length body)),
           body ++ NUL :: drop (S (length body)) dst)
      end
  end.

(** *** Maps *)

Section hash_map.
Context {K : Type} `{Countable K} {V : Type}.

(** [bpf_map_lookup_elem] on a [BPF_MAP_TYPE_HASH]. *)
Definition bpf_map_lookup_elem (m : gmap K V) (key : K) : option V := m !! key.

(** [bpf_map_update_elem(map, key, value, BPF_ANY)] on a
    [BPF_MAP_TYPE_HASH] of [max_entries] slots: an existing key is
    overwritten, a new one is added while there is room, and refused with
    [-E2BIG] when there is none. *)
Definition bpf_map_update_elem (max_entries : Z) (m : gmap K V) (key : K) (value : V)
  : Z * gmap K V :=
  match m !! key with
  | Some _ => (0, <[key := value]> m)
  | None =>
      if decide (Z.of_nat (size m) < max_entries)
      then (0, <[key := value]> m)
      else (- E2BIG, m)
  end.
End hash_map.

(** [bpf_map_lookup_elem] on a [BPF_MAP_TYPE_PERCPU_ARRAY]: every index
    below [max_entries] exists on every CPU, zero-filled from creation; the
    lookup returns the running CPU's copy. *)
Definition bpf_percpu_array_lookup_elem {V : Type} (max_entries : Z)
    (m : nat → V) (cpu : nat) (key : Z) : option V :=
  if decide (0 ≤ key < max_entries) then Some (m cpu) else None.

(** ** Code common to both programs

    [write_placeholder] and [snapshot_cgroup] are defined twice in the
    source, with the same text, in [cpu_hotspot.c] and in
    [memory_faults.c].  [dst] is always the address of an array inside a
    struct, never NULL, so the [!dst] test is left out. *)

Definition write_placeholder (dst : list byte) (len : nat) : list byte :=
  if decide (len = 0%nat) then dst
  else
    let dst := memset0 dst len in
    let dst := if decide (0 < len)%nat then <[0%nat := "n"%byte]> dst else dst in
    let dst := if decide (1 < len)%nat then <[1%nat := "/"%byte]> dst else dst in
    let dst := if decide (2 < len)%nat then <[2%nat := "a"%byte]> dst else dst in
    dst.

(** Result and the buffer after. *)
Definition snapshot_cgroup (k : kernel.t) (dst : list byte) (len : nat)
  : bool * list byte :=
  if decide (len = 0%nat) then (false, dst)
  else
    let dst := memset0 dst len in
    match bpf_get_current_task_btf k with
    | None => (false, dst)
    | Some task =>
    match task_struct.cgroups task with
    | None => (false, dst)
    | Some cset =>
    match css_set.dfl_cgrp cset with
    | None => (false, dst)
    | Some cgrp =>
    match cgroup.kn cgrp with
    | None => (false, dst)
    | Some kn =>
        let try_parent (dst : list byte) : bool * list byte :=
          match kernfs_node.parent kn with
          | Some parent_kn =>
              match kernfs_node.name parent_kn with
              | Some parent =>
                  let r := bpf_core_read_str dst len parent in
                  (bool_decide (0 < r.1), r.2)
              | None => (false, dst)
              end
          | None => (false, dst)
          end in
        match kernfs_node.name kn with
        | Some leaf =>
            let r := bpf_core_read_str dst len leaf in
            if bool_decide (0 < r.1) then (true, r.2) else try_parent r.2
        | None => try_parent dst
        end
    end end end end.

(** The call pattern of every use of the two, in both programs:
    [if (!snapshot_cgroup(buf, len)) write_placeholder(buf, len);] *)
Definition cgroup_or_placeholder (k : kernel.t) (buf : list byte) (len : nat)
  : list byte :=
  let r := snapshot_cgroup k buf len in
  if r.1 then r.2 else write_placeholder r.2 len.

(** ** [src/bpf/cpu_hotspot.c] *)

(** [struct cpu_state]: last pid and timestamp of a CPU. *)
Module cpu_state.
Record t : Type := mk { pid : Z; ts : Z }.
End cpu_state.

Module pid_stat.
Record t : Type := mk {
  cpu_time_ns : Z;
  comm : list byte;       (* char comm[16] *)
  cgroup : list byte      (* char cgroup[64] *)
}.
(** [struct pid_stat new_ps = {}] *)
Definition zero : t := mk 0 (replicate 16 NUL) (replicate 64 NUL).
End pid_stat.

Module cpu_hotspot.

(** The three maps of the object. *)
Record maps : Type := mk {
  cpu_state : nat → cpu_state.t;       (* PERCPU_ARRAY, max_entries 1 *)
  pid_stats : gmap Z pid_stat.t;       (* HASH, max_entries 10240 *)
  cpu_contention : gmap Z Z            (* HASH, max_entries 2048 *)
}.

Definition cpu_state_max_entries : Z := 1.
Definition pid_stats_max_entries : Z := 10240.
Definition cpu_contention_max_entries : Z := 2048.

(** The maps as the loader creates them. *)
Definition init : maps := mk (λ _, cpu_state.mk 0 0) ∅ ∅.

(** Lines 99-108: the contention counter of the pair. *)
Definition count_contention (victim aggressor : Z) (m : gmap Z Z) : gmap Z Z :=
  if bool_decide (victim ≠ 0) && bool_decide (aggressor ≠ 0) then
    let pair := Z.lor (to_u64 (Z.shiftl victim 32)) aggressor in
    match bpf_map_lookup_elem m pair with
    | Some cnt => <[pair := to_u64 (cnt + 1)]> m
    | None =>
        let init := 1 in
        (bpf_map_update_elem cpu_contention_max_entries m pair init).2
    end
  else m.

(** Lines 111-130: the CPU time of the pid stored in the slot. *)
Definition account (k : kernel.t) (ts : Z) (st : cpu_state.t)
    (m : gmap Z pid_stat.t) : gmap Z pid_stat.t :=
  if bool_decide (cpu_state.pid st ≠ 0) then
    let delta := to_u64 (ts - cpu_state.ts st) in
    let pid := cpu_state.pid st in
    match bpf_map_lookup_elem m pid with
    | None =>
        let new_ps := pid_stat.zero in
        let comm := (bpf_get_current_comm k (pid_stat.comm new_ps) 16).2 in
        let cgroup := cgroup_or_placeholder k (pid_stat.cgroup new_ps) 64 in
        let new_ps := pid_stat.mk delta comm cgroup in
        (bpf_map_update_elem pid_stats_max_entries m pid new_ps).2
    | Some ps =>
        let cpu_time_ns := to_u64 (pid_stat.cpu_time_ns ps + delta) in
        let cgroup :=
          if first_is_nul (pid_stat.cgroup ps)
          then cgroup_or_placeholder k (pid_stat.cgroup ps) 64
          else pid_stat.cgroup ps in
        let comm :=
          if first_is_nul (pid_stat.comm ps)
          then (bpf_get_current_comm k (pid_stat.comm ps) 16).2
          else pid_stat.comm ps in
        <[pid := pid_stat.mk cpu_time_ns comm cgroup]> m
    end
  else m.

(** The tracepoint program: its return value and the maps after. *)
Definition handle_sched_switch (k : kernel.t)
    (ctx : trace_event_raw_sched_switch.t) (m : maps) : Z * maps :=
  let ts := bpf_ktime_get_ns k in
  let key := 0 in
  match bpf_percpu_array_lookup_elem cpu_state_max_entries
          (cpu_state m) (kernel.cpu k) key with
  | None => (0, m)
  | Some st =>
      let victim := to_u32 (trace_event_raw_sched_switch.prev_pid ctx) in
      let aggressor := to_u32 (trace_event_raw_sched_switch.next_pid ctx) in
      let cpu_contention := count_contention victim aggressor (cpu_contention m) in
      let pid_stats := account k ts st (pid_stats m) in
      let next_pid := to_u32 (trace_event_raw_sched_switch.next_pid ctx) in
      let st := cpu_state.mk next_pid ts in
      (0, mk (<[kernel.cpu k := st]> (cpu_state m)) pid_stats cpu_contention)
  end.

End cpu_hotspot.

(** ** [src/bpf/memory_faults.c] *)

Module fault_stat.
Record t : Type := mk {
  faults : Z;
  cgroup : list byte      (* char cgroup[64] *)
}.
(** [struct fault_stat init = {}] *)
Definition zero : t := mk 0 (replicate 64 NUL).
End fault_stat.

Module memory_faults.

Definition page_faults_max_entries : Z := 4096.

(** Return value and the [page_faults] map after. *)
Definition record_fault (k : kernel.t) (page_faults : gmap Z fault_stat.t)
  : Z * gmap Z fault_stat.t :=
  let pid := to_u32 (Z.shiftr (bpf_get_current_pid_tgid k) 32) in
  if bool_decide (pid = 0) then (0, page_faults)
  else
    match bpf_map_lookup_elem page_faults pid with
    | Some entry =>
        let faults := to_u64 (fault_stat.faults entry + 1) in
        let cgroup :=
          if first_is_nul (fault_stat.cgroup entry)
          then cgroup_or_placeholder k (fault_stat.cgroup entry) 64
          else fault_stat.cgroup entry in
        (0, <[pid := fault_stat.mk faults cgroup]> page_faults)
    | None =>
        let init := fault_stat.zero in
        let cgroup := cgroup_or_placeholder k (fault_stat.cgroup init) 64 in
        let init := fault_stat.mk 1 cgroup in
        (0, (bpf_map_update_elem page_faults_max_entries page_faults pid init).2)
    end.

(** [BPF_KPROBE(handle_mm_fault_kprobe)] *)
Definition handle_mm_fault_kprobe (k : kernel.t) (page_faults : gmap Z fault_stat.t)
  : Z * gmap Z fault_stat.t :=
  record_fault k page_faults.

End memory_faults.

(** ** The two programs on one host

    Events arrive one at a time; each runs its program to completion on the
    maps the previous one left. *)

Record system : Type := mk_system {
  hotspot : cpu_hotspot.maps;
  page_faults : gmap Z fault_stat.t
}.

Inductive event : Type :=
  | sched_switch (k : kernel.t) (ctx : trace_event_raw_sched_switch.t)
  | page_fault (k : kernel.t).

Definition boot : system := mk_system cpu_hotspot.init ∅.

Definition step (s : system) (e : event) : system :=
  match e with
  | sched_switch k ctx =>
      mk_system (cpu_hotspot.handle_sched_switch k ctx (hotspot s)).2 (page_faults s)
  | page_fault k =>
      mk_system (hotspot s) (memory_faults.handle_mm_fault_kprobe k (page_faults s)).2
  end.

Definition run (s : system) (evs : list event) : system := foldl step s evs.

(** What a program returns to the event source. *)
Definition retval (s : system) (e : event) : Z :=
  match e with
  | sched_switch k ctx => (cpu_hotspot.handle_sched_switch k ctx (hotspot s)).1
  | page_fault k => (memory_faults.handle_mm_fault_kprobe k (page_faults s)).1
  end.
(** ** Vocabulary of the statements *)

(** The packed key of a pair of ids: [((u64)victim << 32) | aggressor]. *)
Definition pair_key (victim aggressor : Z) : Z :=
  Z.lor (to_u64 (Z.shiftl victim 32)) aggressor.


(** The record [account] leaves for a pid that already has one. *)
Definition accounted (k : kernel.t) (delta : Z) (ps : pid_stat.t) : pid_stat.t :=
  pid_stat.mk
    (to_u64 (pid_stat.cpu_time_ns ps + delta))
    (if first_is_nul (pid_stat.comm ps)
     then (bpf_get_current_comm k (pid_stat.comm ps) 16).2
     else pid_stat.comm ps)
    (if first_is_nul (pid_stat.cgroup ps)
     then cgroup_or_placeholder k (pid_stat.cgroup ps) 64
     else pid_stat.cgroup ps).

(** The record [account] builds for a pid that has none. *)
Definition first_seen (k : kernel.t) (delta : Z) : pid_stat.t :=
  pid_stat.mk delta
    (bpf_get_current_comm k (replicate 16 NUL) 16).2
    (cgroup_or_placeholder k (replicate 64 NUL) 64).

(** The pid [record_fault] reads: [bpf_get_current_pid_tgid() >> 32]. *)
Definition fault_pid (k : kernel.t) : Z :=
  to_u32 (Z.shiftr (bpf_get_current_pid_tgid k) 32).

(** The record [record_fault] leaves for a pid that already has one. *)
Definition faulted (k : kernel.t) (entry : fault_stat.t) : fault_stat.t :=
  fault_stat.mk
    (to_u64 (fault_stat.faults entry + 1))
    (if first_is_nul (fault_stat.cgroup entry)
     then cgroup_or_placeholder k (fault_stat.cgroup entry) 64
     else fault_stat.cgroup entry).

(** The record [record_fault] builds for a pid that has none. *)
Definition first_fault (k : kernel.t) : fault_stat.t :=
  fault_stat.mk 1 (cgroup_or_placeholder k (replicate 64 NUL) 64).


(** Maps that hold exactly their [max_entries] entries: the keys
    [key 1 .. key n], all with the value [v]. *)
Definition full_of {V : Type} (key : Z → Z) (v : V) (n : Z) : gmap Z V :=
  list_to_map ((λ i, (key i, v)) <$> seqZ 1 n).

Abbreviation full_pid_stats :=
  (full_of id pid_stat.zero cpu_hotspot.pid_stats_max_entries).

(** Victim 1, aggressors 1 .. 2048. *)
Abbreviation full_cpu_contention :=
  (full_of (λ i, 2 ^ 32 + i) 1 cpu_hotspot.cpu_contention_max_entries).

Abbreviation full_page_faults :=
  (full_of id fault_stat.zero memory_faults.page_faults_max_entries).

(** [key] was inserted between [m] and [m']. *)
Definition inserted {V : Type} (m m' : gmap Z V) (key : Z) : Prop :=
  m !! key = None ∧ is_Some (m' !! key).

(** The two halves of a [cpu_contention] key. *)
Definition victim_of (key : Z) : Z := Z.shiftr key 32.
Definition aggressor_of (key : Z) : Z := Z.land key (Z.ones 32).

(** ** Sample inputs *)

(** A task in a cgroup whose kernfs node is named [leaf] and lies under
    [system.slice]. *)
Definition sample_task (pid : Z) (leaf : option kstr) : task_struct.t :=
  task_struct.mk pid pid (list_byte_of_string "worker")
    (Some (css_set.mk (Some (cgroup.mk (Some
       (kernfs_node.mk leaf
          (Some (kernfs_node.mk
                   (Some (kstr_at (list_byte_of_string "system.slice")))
                   None)))))))).

(** A task whose [cgroups] pointer reads as NULL. *)
Definition detached_task (pid : Z) : task_struct.t :=
  task_struct.mk pid pid (list_byte_of_string "worker") None.

(** CPU 0 switches from [prev] to [next] at time [t]. *)
Definition sample_switch (t prev next : Z) : event :=
  sched_switch
    (kernel.mk t 0%nat
       (Some (sample_task prev (Some (kstr_at (list_byte_of_string "user.slice"))))))
    (trace_event_raw_sched_switch.mk prev next).

(** [task] takes a page fault. *)
Definition sample_fault (task : task_struct.t) : event :=
  page_fault (kernel.mk 0 0%nat (Some task)).

(** ["n/a"] in a 64-byte field. *)
Definition sentinel64 : list byte :=
  "n"%byte :: "/"%byte :: "a"%byte :: replicate 61 NUL.

(** The kernfs node the resolver reaches: task, [cgroups], [dfl_cgrp],
    [kn], each hop possibly NULL. *)
Definition leaf_node (k : kernel.t) : option kernfs_node.t :=
  task ← bpf_get_current_task_btf k;
  cset ← task_struct.cgroups task;
  cgrp ← css_set.dfl_cgrp cset;
  cgroup.kn cgrp.

(** A zeroed [n]-byte field. *)
Definition zeroed (n : nat) : list byte := replicate n NUL.

(** The string behind a name pointer that is neither NULL nor faulting. *)
Definition readable (p : option kstr) : option (list byte) :=
  match p with
  | Some (kstr_at s) => Some s
  | Some kstr_fault | None => None
  end.

(** The name the walk ends on: the leaf's when its pointer is readable, else
    the parent's when that one is. *)
Definition resolved_name (node : kernfs_node.t) : option (list byte) :=
  match readable (kernfs_node.name node) with
  | Some s => Some s
  | None => p ← kernfs_node.parent node; readable (kernfs_node.name p)
  end.

(** [s] copied into the zeroed [len] bytes of [dst]: cut to [len - 1] bytes,
    NUL after. *)
Definition copied (dst : list byte) (len : nat) (s : list byte) : list byte :=
  (bpf_core_read_str (memset0 dst len) len (kstr_at s)).2.

(** *** The resolver in the words of the specification

    "If a leaf name is present and non-empty, writes it (truncated to buffer
    capacity) and returns success.  Otherwise walks to the parent node and
    retries once.  Returns failure if the context, membership record, node,
    or any intermediate link is absent at any hop." *)

(** A name that is present and non-empty. *)
Definition nonempty_name (p : option kstr) : option (list byte) :=
  match readable p with
  | Some s => if decide (cstr s = []) then None else Some s
  | None => None
  end.

Definition resolve_spec (k : kernel.t) (dst : list byte) (len : nat)
  : bool * list byte :=
  match leaf_node k with
  | None => (false, memset0 dst len)
  | Some node =>
      match nonempty_name (kernfs_node.name node) with
      | Some s => (true, copied dst len s)
      | None =>
          match kernfs_node.parent node with
          | None => (false, memset0 dst len)
          | Some parent_node =>
              match nonempty_name (kernfs_node.name parent_node) with
              | Some s => (true, copied dst len s)
              | None => (false, memset0 dst len)
              end
          end
      end
  end.

(** ** CPU time along a sequence of switches *)

(** The timestamp the program takes at an event, and the pid it stores for
    the next one. *)
Definition ts_of (e : event) : Z :=
  match e with
  | sched_switch k _ | page_fault k => bpf_ktime_get_ns k
  end.

Definition next_of (e : event) : Z :=
  match e with
  | sched_switch _ ctx => to_u32 (trace_event_raw_sched_switch.next_pid ctx)
  | page_fault _ => 0
  end.

(** A context switch delivered on CPU [u]. *)
Definition switch_on (u : nat) (e : event) : Prop :=
  match e with
  | sched_switch k _ => kernel.cpu k = u
  | page_fault _ => False
  end.

(** [pid_stats[x].cpu_time_ns], 0 while [x] has no record. *)
Definition cpu_time_of (s : system) (x : Z) : Z :=
  default 0 (pid_stat.cpu_time_ns <$> cpu_hotspot.pid_stats (hotspot s) !! x).

(** The sum of [ts_{i+1} - ts_i] over the consecutive events [i], [i+1] of
    which the first left [x] in the slot: the intervals at whose end [x] is
    the outgoing entity. *)
Fixpoint outgoing_time (x : Z) (evs : list event) : Z :=
  match evs with
  | e1 :: rest =>
      match rest with
      | e2 :: _ =>
          (if decide (next_of e1 = x) then ts_of e2 - ts_of e1 else 0)
          + outgoing_time x rest
      | [] => 0
      end
  | [] => 0
  end.

(** The same sum when the slot holds [(p, t)] before the first event. *)
Fixpoint outgoing_time_from (x p t : Z) (evs : list event) : Z :=
  match evs with
  | e :: rest =>
      (if decide (p = x) then ts_of e - t else 0)
      + outgoing_time_from x (next_of e) (ts_of e) rest
  | [] => 0
  end.

(** The event is a switch that has to insert a record into a [pid_stats]
    that has no room left. *)
Definition saturated (s : system) (e : event) : bool :=
  match e with
  | sched_switch k _ =>
      let st := cpu_hotspot.cpu_state (hotspot s) (kernel.cpu k) in
      bool_decide (cpu_state.pid st ≠ 0)
      && bool_decide (cpu_hotspot.pid_stats (hotspot s) !! cpu_state.pid st = None)
      && bool_decide (cpu_hotspot.pid_stats_max_entries
                        ≤ Z.of_nat (size (cpu_hotspot.pid_stats (hotspot s))))
  | page_fault _ => false
  end.

Fixpoint never_saturates (s : system) (evs : list event) : Prop :=
  match evs with
  | e :: rest => saturated s e = false ∧ never_saturates (step s e) rest
  | [] => True
  end.

(** The clock never goes back along the sequence. *)
Fixpoint monotone_ts (evs : list event) : Prop :=
  match evs with
  | e1 :: rest =>
      match rest with
      | e2 :: _ => ts_of e1 ≤ ts_of e2 ∧ monotone_ts rest
      | [] => True
      end
  | [] => True
  end.

(** ** Two CPUs in [record_fault] at once

    [handle_mm_fault_kprobe] runs on whichever CPU takes the fault, against
    the one [page_faults] map, and the key is the process: two threads of a
    process that fault at the same time on two CPUs run [record_fault] on
    the same key.  The source takes no lock and uses no atomic instruction,
    so between two accesses of one CPU to the map the other CPU may run its
    own.  The accesses of [record_fault], in the order of the source
    ([memory_faults.c] lines 67-81):
    - after the [pid == 0] test, which touches no map, [bpf_map_lookup_elem];
    - on a hit, through the returned pointer: the load and the store of
      [entry->faults++]; the load of [entry->cgroup[0]]; and, when that byte
      is NUL, the stores of [snapshot_cgroup] and of [write_placeholder]
      into [entry->cgroup], byte by byte (a wider store is a run of these
      with nothing in between);
    - on a miss, [bpf_map_update_elem] of the record built on the stack.
    A pointer into the map is the key it was looked up at: nothing deletes
    from the map, and [bpf_map_update_elem] puts a whole record in place at
    once. *)

(** One byte store into a buffer: the index and the byte. *)
Definition store : Type := nat * byte.

Definition apply_store (buf : list byte) (st : store) : list byte :=
  <[st.1 := st.2]> buf.

Definition apply_stores (sts : list store) (buf : list byte) : list byte :=
  foldl apply_store buf sts.

(** The stores that write the bytes [l] at the indices [i], [i + 1], ... *)
Fixpoint stores_from (i : nat) (l : list byte) : list store :=
  match l with
  | [] => []
  | b :: r => (i, b) :: stores_from (S i) r
  end.

(** The stores of [__builtin_memset(dst, 0, len)]. *)
Definition memset_stores (len : nat) : list store :=
  stores_from 0 (replicate len NUL).

(** The return value of [bpf_core_read_str(dst, len, src)] and its stores
    into [dst]. *)
Definition bpf_core_read_str_stores (len : nat) (src : kstr) : Z * list store :=
  match len with
  | O => (0, [])
  | S n =>
      match src with
      | kstr_fault => (- EFAULT, memset_stores len)
      | kstr_at s =>
          let body := take n (cstr s) in
          (Z.of_nat (S (length body)), stores_from 0 (body ++ [NUL]))
      end
  end.

(** The stores of [write_placeholder(dst, len)]. *)
Definition write_placeholder_stores (len : nat) : list store :=
  if decide (len = 0%nat) then []
  else
    memset_stores len
    ++ (if decide (0 < len)%nat then [(0%nat, "n"%byte)] else [])
    ++ (if decide (1 < len)%nat then [(1%nat, "/"%byte)] else [])
    ++ (if decide (2 < len)%nat then [(2%nat, "a"%byte)] else []).

(** The result of [snapshot_cgroup(dst, len)] and its stores into [dst]. *)
Definition snapshot_cgroup_stores (k : kernel.t) (len : nat) : bool * list store :=
  if decide (len = 0%nat) then (false, [])
  else
    let zero := memset_stores len in
    match bpf_get_current_task_btf k with
    | None => (false, zero)
    | Some task =>
    match task_struct.cgroups task with
    | None => (false, zero)
    | Some cset =>
    match css_set.dfl_cgrp cset with
    | None => (false, zero)
    | Some cgrp =>
    match cgroup.kn cgrp with
    | None => (false, zero)
    | Some kn =>
        let try_parent : bool * list store :=
          match kernfs_node.parent kn with
          | Some parent_kn =>
              match kernfs_node.name parent_kn with
              | Some parent =>
                  let r := bpf_core_read_str_stores len parent in
                  (bool_decide (0 < r.1), r.2)
              | None => (false, [])
              end
          | None => (false, [])
          end in
        match kernfs_node.name kn with
        | Some leaf =>
            let r := bpf_core_read_str_stores len leaf in
            if bool_decide (0 < r.1) then (true, zero ++ r.2)
            else (try_parent.1, zero ++ r.2 ++ try_parent.2)
        | None => (try_parent.1, zero ++ try_parent.2)
        end
    end end end end.

(** The stores of
    [if (!snapshot_cgroup(buf, len)) write_placeholder(buf, len);] *)
Definition cgroup_or_placeholder_stores (k : kernel.t) (len : nat) : list store :=
  let r := snapshot_cgroup_stores k len in
  if r.1 then r.2 else r.2 ++ write_placeholder_stores len.

(** Where a CPU is in [record_fault]. *)
Inductive pc : Type :=
  | at_lookup                      (* at entry, before [bpf_map_lookup_elem] *)
  | at_load                        (* the lookup hit, before the load of [entry->faults] *)
  | at_store (faults : Z)          (* [faults] loaded, before the store of [faults + 1] *)
  | at_test                        (* before the load of [entry->cgroup[0]] *)
  | at_cgroup (todo : list store)  (* the stores into [entry->cgroup] still to do *)
  | at_update                      (* the lookup missed, before [bpf_map_update_elem] *)
  | finished.

(** The stores through [entry]: each one changes its own field. *)
Definition store_faults (v : Z) (entry : fault_stat.t) : fault_stat.t :=
  fault_stat.mk v (fault_stat.cgroup entry).

Definition store_cgroup (st : store) (entry : fault_stat.t) : fault_stat.t :=
  fault_stat.mk (fault_stat.faults entry) (apply_store (fault_stat.cgroup entry) st).

Definition after_stores (todo : list store) : pc :=
  match todo with
  | [] => finished
  | _ :: _ => at_cgroup todo
  end.

(** One access of a CPU that runs [record_fault] for [k]: where it is after
    it, and the map after it.  A key that was found stays in the map
    ([race_step_keeps_key]), so the [None] branches of [at_load] and
    [at_test] are never taken; nor is [at_cgroup []], as [after_stores]
    never leads there. *)
Definition record_fault_step (k : kernel.t) (p : pc) (m : gmap Z fault_stat.t)
  : pc * gmap Z fault_stat.t :=
  let pid := fault_pid k in
  match p with
  | at_lookup =>
      if bool_decide (pid = 0) then (finished, m)
      else
        match bpf_map_lookup_elem m pid with
        | Some _ => (at_load, m)
        | None => (at_update, m)
        end
  | at_load =>
      match m !! pid with
      | Some entry => (at_store (fault_stat.faults entry), m)
      | None => (finished, m)
      end
  | at_store faults => (at_test, alter (store_faults (to_u64 (faults + 1))) pid m)
  | at_test =>
      match m !! pid with
      | Some entry =>
          if first_is_nul (fault_stat.cgroup entry)
          then (after_stores (cgroup_or_placeholder_stores k 64), m)
          else (finished, m)
      | None => (finished, m)
      end
  | at_cgroup [] => (finished, m)
  | at_cgroup (st :: todo) => (after_stores todo, alter (store_cgroup st) pid m)
  | at_update =>
      (finished,
       (bpf_map_update_elem memory_faults.page_faults_max_entries m pid
          (first_fault k)).2)
  | finished => (finished, m)
  end.

(** A CPU alone: [n] accesses with nothing in between. *)
Fixpoint record_fault_steps (n : nat) (k : kernel.t) (p : pc)
    (m : gmap Z fault_stat.t) : pc * gmap Z fault_stat.t :=
  match n with
  | O => (p, m)
  | S n' =>
      let r := record_fault_step k p m in
      record_fault_steps n' k r.1 r.2
  end.

(** No run of [record_fault] for [k] has more accesses than this. *)
Definition record_fault_accesses (k : kernel.t) : nat :=
  4 + length (cgroup_or_placeholder_stores k 64).

(** Two CPUs in [record_fault] and the map they share. *)
Record race : Type := mk_race {
  unit_a : pc;
  unit_b : pc;
  shared : gmap Z fault_stat.t
}.

(** The schedule names the CPU that does the next access: [true] for the
    one that runs for [ka], [false] for the one that runs for [kb]. *)
Definition race_step (ka kb : kernel.t) (c : race) (who : bool) : race :=
  if who then
    let r := record_fault_step ka (unit_a c) (shared c) in
    mk_race r.1 (unit_b c) r.2
  else
    let r := record_fault_step kb (unit_b c) (shared c) in
    mk_race (unit_a c) r.1 r.2.

(** Both CPUs enter [record_fault] on [m]; their accesses come in the order
    of [sched]. *)
Definition interleave (ka kb : kernel.t) (m : gmap Z fault_stat.t)
    (sched : list bool) : race :=
  foldl (race_step ka kb) (mk_race at_lookup at_lookup m) sched.

Definition completed (c : race) : Prop :=
  unit_a c = finished ∧ unit_b c = finished.

(** The first CPU does [na] accesses, then the second does [nb]. *)
Definition one_after_the_other (na nb : nat) : list bool :=
  replicate na true ++ replicate nb false.

(** Every [cgroup] array in the map has its 64 bytes. *)
Definition cgroup_arrays (m : gmap Z fault_stat.t) : Prop :=
  ∀ pid entry, m !! pid = Some entry → length (fault_stat.cgroup entry) = 64%nat.

(** The counter a lookup would find, 0 for a key that is not there. *)
Definition faults_at (m : gmap Z fault_stat.t) (pid : Z) : Z :=
  default 0 (fault_stat.faults <$> m !! pid).

(** *** What holds between any two accesses *)

(** The CPU has stored its count. *)
Definition counted (p : pc) : Prop :=
  match p with
  | at_test | at_cgroup _ | finished => True
  | at_lookup | at_load | at_store _ | at_update => False
  end.

(** The CPU found the key, or will, and has not stored yet; what it has
    loaded, if anything, is [c] (or one of [c], [c']). *)
Definition loading (c : Z) (p : pc) : Prop :=
  match p with
  | at_lookup | at_load => True
  | at_store v => v = c
  | at_test | at_cgroup _ | at_update | finished => False
  end.

Definition loading2 (c c' : Z) (p : pc) : Prop :=
  match p with
  | at_lookup | at_load => True
  | at_store v => v = c ∨ v = c'
  | at_test | at_cgroup _ | at_update | finished => False
  end.

(** The key was there with the count [c] when both CPUs entered. *)
Definition present_inv (key c : Z) (r : race) : Prop :=
  ∃ entry, shared r !! key = Some entry
  ∧ ((fault_stat.faults entry = c
      ∧ loading c (unit_a r) ∧ loading c (unit_b r))
     ∨ (fault_stat.faults entry = to_u64 (c + 1)
        ∧ counted (unit_a r) ∧ loading2 c (to_u64 (c + 1)) (unit_b r))
     ∨ (fault_stat.faults entry = to_u64 (c + 1)
        ∧ counted (unit_b r) ∧ loading2 c (to_u64 (c + 1)) (unit_a r))
     ∨ (counted (unit_a r) ∧ counted (unit_b r)
        ∧ (fault_stat.faults entry = to_u64 (c + 1)
           ∨ fault_stat.faults entry = to_u64 (to_u64 (c + 1) + 1)))).

(** The CPU has missed the key, or not looked yet. *)
Definition missing (p : pc) : Prop :=
  match p with
  | at_lookup | at_update => True
  | at_load | at_store _ | at_test | at_cgroup _ | finished => False
  end.

(** The CPU has not stored a count, and the other one has inserted the
    key. *)
Definition overtaken (p : pc) : Prop :=
  match p with
  | at_lookup | at_update | at_load => True
  | at_store v => v = 1
  | at_test | at_cgroup _ | finished => False
  end.

(** The key was not there when both CPUs entered on [m0]. *)
Definition absent_inv (key : Z) (m0 : gmap Z fault_stat.t) (r : race) : Prop :=
  (shared r = m0 ∧ missing (unit_a r) ∧ missing (unit_b r))
  ∨ ∃ entry, shared r !! key = Some entry
    ∧ ((fault_stat.faults entry = 1
        ∧ unit_a r = finished ∧ overtaken (unit_b r))
       ∨ (fault_stat.faults entry = 1
          ∧ unit_b r = finished ∧ overtaken (unit_a r))
       ∨ (counted (unit_a r) ∧ counted (unit_b r)
          ∧ (fault_stat.faults entry = 1
             ∨ fault_stat.faults entry = to_u64 (1 + 1)))).

(** Thread [tid] of process [tgid] takes a page fault on CPU [cpu]. *)
Definition faulting_thread (cpu : nat) (tid tgid : Z) (cgroups : option css_set.t)
  : kernel.t :=
  kernel.mk 0 cpu (Some (task_struct.mk tid tgid [] cgroups)).

(** A cgroup whose kernfs node is named [name] and has no parent. *)
Definition named_cgroup (name : string) : option css_set.t :=
  Some (css_set.mk (Some (cgroup.mk (Some
    (kernfs_node.mk (Some (kstr_at (list_byte_of_string name))) None))))).

(** ** Vocabulary of the further properties *)

(** ["n/a"] *)
Definition placeholder : list byte := ["n"%byte; "/"%byte; "a"%byte].

(** A [n]-byte field that holds a C string and nothing else: bytes without
    NUL, fewer than [n], then NUL up to the end. *)
Definition c_string_field (n : nat) (buf : list byte) : Prop :=
  (length (cstr buf) < n)%nat
  ∧ buf = cstr buf ++ replicate (n - length (cstr buf)) NUL.

(** The bytes of the name the resolver ends on, cut to what [len] bytes can
    hold beside the NUL; none when the walk fails. *)
Definition resolved_bytes (k : kernel.t) (len : nat) : list byte :=
  match leaf_node k ≫= resolved_name with
  | Some s => take (len - 1) (cstr s)
  | None => []
  end.

(** Every text field of every record is a C string field of its size. *)
Definition fields_well_formed (s : system) : Prop :=
  (∀ pid ps, cpu_hotspot.pid_stats (hotspot s) !! pid = Some ps →
     c_string_field 16 (pid_stat.comm ps) ∧ c_string_field 64 (pid_stat.cgroup ps))
  ∧ (∀ pid entry, page_faults s !! pid = Some entry →
       c_string_field 64 (fault_stat.cgroup entry)).

(** No map holds more entries than its [max_entries]. *)
Definition within_capacity (s : system) : Prop :=
  Z.of_nat (size (cpu_hotspot.pid_stats (hotspot s))) ≤ cpu_hotspot.pid_stats_max_entries
  ∧ Z.of_nat (size (cpu_hotspot.cpu_contention (hotspot s)))
    ≤ cpu_hotspot.cpu_contention_max_entries
  ∧ Z.of_nat (size (page_faults s)) ≤ memory_faults.page_faults_max_entries.




(** The event is a fault that has to insert a record into a [page_faults]
    that has no room left. *)
Definition fault_refused (s : system) (e : event) : bool :=
  match e with
  | page_fault k =>
      bool_decide (fault_pid k ≠ 0)
      && bool_decide (page_faults s !! fault_pid k = None)
      && bool_decide (memory_faults.page_faults_max_entries
                        ≤ Z.of_nat (size (page_faults s)))
  | sched_switch _ _ => false
  end.

Fixpoint no_fault_refused (s : system) (evs : list event) : Prop :=
  match evs with
  | e :: rest => fault_refused s e = false ∧ no_fault_refused (step s e) rest
  | [] => True
  end.

(** [cpu_contention[key]], 0 while [key] has no counter. *)
Definition contention_of (s : system) (key : Z) : Z :=
  default 0 (cpu_hotspot.cpu_contention (hotspot s) !! key).

(** The event is a switch from [victim] to [aggressor]. *)
Definition is_handoff (victim aggressor : Z) (e : event) : bool :=
  match e with
  | sched_switch _ ctx =>
      bool_decide (to_u32 (trace_event_raw_sched_switch.prev_pid ctx) = victim)
      && bool_decide (to_u32 (trace_event_raw_sched_switch.next_pid ctx) = aggressor)
  | page_fault _ => false
  end.

Fixpoint handoff_count (victim aggressor : Z) (evs : list event) : Z :=
  match evs with
  | e :: rest =>
      (if is_handoff victim aggressor e then 1 else 0)
      + handoff_count victim aggressor rest
  | [] => 0
  end.

(** The event is a switch that has to insert a counter into a
    [cpu_contention] that has no room left. *)
Definition contention_refused (s : system) (e : event) : bool :=
  match e with
  | sched_switch _ ctx =>
      let victim := to_u32 (trace_event_raw_sched_switch.prev_pid ctx) in
      let aggressor := to_u32 (trace_event_raw_sched_switch.next_pid ctx) in
      bool_decide (victim ≠ 0) && bool_decide (aggressor ≠ 0)
      && bool_decide (cpu_hotspot.cpu_contention (hotspot s) !! pair_key victim aggressor
                      = None)
      && bool_decide (cpu_hotspot.cpu_contention_max_entries
                        ≤ Z.of_nat (size (cpu_hotspot.cpu_contention (hotspot s))))
  | page_fault _ => false
  end.

Fixpoint no_contention_refused (s : system) (evs : list event) : Prop :=
  match evs with
  | e :: rest => contention_refused s e = false ∧ no_contention_refused (step s e) rest
  | [] => True
  end.

(** The CPU an event is delivered on. *)
Definition cpu_of (e : event) : nat :=
  match e with
  | sched_switch k _ | page_fault k => kernel.cpu k
  end.

Definition is_switch (e : event) : Prop :=
  match e with
  | sched_switch _ _ => True
  | page_fault _ => False
  end.

(** The events of [evs] delivered on CPU [u], in their order. *)
Definition on_cpu (u : nat) (evs : list event) : list event :=
  filter (λ e, cpu_of e = u) evs.

Fixpoint sum_over (f : nat → Z) (cpus : list nat) : Z :=
  match cpus with
  | u :: rest => f u + sum_over f rest
  | [] => 0
  end.

(** The time the program charges to [x] over [evs], the slots being
    [slots] before: at each event, the time since the slot of its CPU was
    written, when that slot holds [x]. *)
Fixpoint charged_time (x : Z) (slots : nat → cpu_state.t) (evs : list event) : Z :=
  match evs with
  | e :: rest =>
      (if decide (cpu_state.pid (slots (cpu_of e)) = x)
       then ts_of e - cpu_state.ts (slots (cpu_of e)) else 0)
      + charged_time x (<[cpu_of e := cpu_state.mk (next_of e) (ts_of e)]> slots) rest
  | [] => 0
  end.
(** * Properties *)

(** ** Arithmetic of the packed keys *)

Lemma to_u32_range z : 0 ≤ to_u32 z < 2 ^ 32.
Proof. unfold to_u32. apply Z.mod_pos_bound. lia. Qed.

Lemma to_u64_range z : 0 ≤ to_u64 z < 2 ^ 64.
Proof. unfold to_u64. apply Z.mod_pos_bound. lia. Qed.

Lemma to_u64_small z : 0 ≤ z < 2 ^ 64 → to_u64 z = z.
Proof. intros. unfold to_u64. by apply Z.mod_small. Qed.


(** The two halves of a packed key do not overlap, so the [|] is a sum. *)
Lemma pack_add hi lo :
  0 ≤ lo < 2 ^ 32 → Z.lor (Z.shiftl hi 32) lo = hi * 2 ^ 32 + lo.
Proof.
  intros Hlo.
  rewrite Z.shiftl_mul_pow2 by lia.
  assert (Hland : Z.land (hi * 2 ^ 32) lo = 0).
  { apply Z.bits_inj'; intros n Hn. rewrite Z.land_spec, Z.bits_0.
    destruct (decide (n < 32)) as [Hlt|Hge].
    - rewrite Z.mul_pow2_bits_low by lia. done.
    - destruct (decide (lo = 0)) as [->|Hne].
      + rewrite Z.bits_0. apply andb_false_r.
      + rewrite (Z.bits_above_log2 lo n), andb_false_r; [done|lia|].
        apply Z.lt_le_trans with 32; [|lia].
        apply Z.log2_lt_pow2; lia. }
  rewrite <- Z.lxor_lor by done. symmetry. by apply Z.add_nocarry_lxor.
Qed.

Lemma pack_hi hi lo : 0 ≤ lo < 2 ^ 32 → Z.shiftr (Z.lor (Z.shiftl hi 32) lo) 32 = hi.
Proof.
  intros Hlo. rewrite pack_add by done. rewrite Z.shiftr_div_pow2 by lia.
  rewrite Z.div_add_l by lia. rewrite Z.div_small by lia. lia.
Qed.

Lemma pack_lo hi lo : 0 ≤ lo < 2 ^ 32 → Z.land (Z.lor (Z.shiftl hi 32) lo) (Z.ones 32) = lo.
Proof.
  intros Hlo. rewrite pack_add by done. rewrite Z.land_ones by lia.
  rewrite Z.add_comm, Z.mod_add by lia. by apply Z.mod_small.
Qed.

Lemma pack_u64 hi : 0 ≤ hi < 2 ^ 32 → to_u64 (Z.shiftl hi 32) = Z.shiftl hi 32.
Proof.
  intros Hhi. apply to_u64_small. rewrite Z.shiftl_mul_pow2 by lia. lia.
Qed.

Lemma pair_key_add v a :
  0 ≤ v < 2 ^ 32 → 0 ≤ a < 2 ^ 32 → pair_key v a = v * 2 ^ 32 + a.
Proof. intros Hv Ha. unfold pair_key. rewrite pack_u64 by done. by apply pack_add. Qed.

Lemma pair_key_inj v a v' a' :
  0 ≤ v < 2 ^ 32 → 0 ≤ a < 2 ^ 32 → 0 ≤ v' < 2 ^ 32 → 0 ≤ a' < 2 ^ 32 →
  pair_key v a = pair_key v' a' → v = v' ∧ a = a'.
Proof. intros ????. rewrite !pair_key_add by done. lia. Qed.

(** ** The per-CPU slot *)

Lemma cpu_state_lookup_hits (m : cpu_hotspot.maps) (cpu : nat) :
  bpf_percpu_array_lookup_elem cpu_hotspot.cpu_state_max_entries
    (cpu_hotspot.cpu_state m) cpu 0 = Some (cpu_hotspot.cpu_state m cpu).
Proof. reflexivity. Qed.

Lemma handle_sched_switch_unfold k ctx m :
  cpu_hotspot.handle_sched_switch k ctx m =
  (0, cpu_hotspot.mk
        (<[kernel.cpu k :=
             cpu_state.mk (to_u32 (trace_event_raw_sched_switch.next_pid ctx))
                          (bpf_ktime_get_ns k)]> (cpu_hotspot.cpu_state m))
        (cpu_hotspot.account k (bpf_ktime_get_ns k)
           (cpu_hotspot.cpu_state m (kernel.cpu k)) (cpu_hotspot.pid_stats m))
        (cpu_hotspot.count_contention
           (to_u32 (trace_event_raw_sched_switch.prev_pid ctx))
           (to_u32 (trace_event_raw_sched_switch.next_pid ctx))
           (cpu_hotspot.cpu_contention m))).
Proof. reflexivity. Qed.

(** C7. Every run of [handle_sched_switch] finds the per-CPU slot (the lookup
    at index 0 of the one-entry per-CPU array cannot miss), returns 0, and
    leaves in the slot of the running CPU exactly the pair
    (next pid, timestamp) of this event, whatever the next pid is (0
    included) and whatever the contention and pid_stats upserts did; the
    slots of the other CPUs are not touched. *)
Theorem C7_slot_always_updated (k : kernel.t)
    (ctx : trace_event_raw_sched_switch.t) (m : cpu_hotspot.maps) :
  let r := cpu_hotspot.handle_sched_switch k ctx m in
  is_Some (bpf_percpu_array_lookup_elem cpu_hotspot.cpu_state_max_entries
             (cpu_hotspot.cpu_state m) (kernel.cpu k) 0)
  ∧ r.1 = 0
  ∧ cpu_hotspot.cpu_state r.2 (kernel.cpu k)
    = cpu_state.mk (to_u32 (trace_event_raw_sched_switch.next_pid ctx))
                   (to_u64 (kernel.ktime_ns k))
  ∧ ∀ c, c ≠ kernel.cpu k →
         cpu_hotspot.cpu_state r.2 c = cpu_hotspot.cpu_state m c.
Proof.
  intros r. subst r. rewrite handle_sched_switch_unfold. simpl.
  split; [by eexists|]. split; [done|]. split.
  - by rewrite fn_lookup_insert.
  - intros c Hc. by rewrite fn_lookup_insert_ne.
Qed.

Lemma C7_witness :
  let k := kernel.mk 400 2%nat None in
  let ctx := trace_event_raw_sched_switch.mk 42 0 in
  let m := cpu_hotspot.mk (λ _, cpu_state.mk 42 150) ∅ ∅ in
  let m' := (cpu_hotspot.handle_sched_switch k ctx m).2 in
  cpu_hotspot.cpu_state m' 2%nat = cpu_state.mk 0 400
  ∧ cpu_hotspot.cpu_state m' 3%nat = cpu_state.mk 42 150.
Proof.
  intros k ctx m m'.
  destruct (C7_slot_always_updated k ctx m) as (_ & _ & Hslot & Hother).
  split; [exact Hslot|]. apply Hother. cbn. lia.
Defined.

(** ** The hash map helper *)

Section update_elem.
Context {V : Type}.
Implicit Types (m : gmap Z V) (key : Z) (value : V).

Lemma update_elem_present max m key value :
  is_Some (m !! key) →
  bpf_map_update_elem max m key value = (0, <[key := value]> m).
Proof. intros [v Hv]. unfold bpf_map_update_elem. by rewrite Hv. Qed.

Lemma update_elem_room max m key value :
  m !! key = None → Z.of_nat (size m) < max →
  bpf_map_update_elem max m key value = (0, <[key := value]> m).
Proof.
  intros Hk Hsz. unfold bpf_map_update_elem. rewrite Hk.
  by rewrite decide_True.
Qed.

Lemma update_elem_full max m key value :
  m !! key = None → max ≤ Z.of_nat (size m) →
  bpf_map_update_elem max m key value = (- E2BIG, m).
Proof.
  intros Hk Hsz. unfold bpf_map_update_elem. rewrite Hk.
  rewrite decide_False; [done|lia].
Qed.

Lemma update_elem_other max m key value key' :
  key' ≠ key → (bpf_map_update_elem max m key value).2 !! key' = m !! key'.
Proof.
  intros Hne. unfold bpf_map_update_elem.
  destruct (m !! key); [|case_decide]; simpl; try done.
  all: by rewrite lookup_insert_ne.
Qed.

Lemma update_elem_lookup max m key value :
  (bpf_map_update_elem max m key value).2 !! key
  = if decide (is_Some (m !! key) ∨ Z.of_nat (size m) < max)
    then Some value else None.
Proof.
  unfold bpf_map_update_elem. destruct (m !! key) as [v|] eqn:Hk.
  - cbn [snd]. rewrite lookup_insert_eq.
    case_decide as Hd; [done|]. destruct Hd. left. by eexists.
  - destruct (decide (Z.of_nat (size m) < max)) as [Hsz|Hsz]; cbn [snd].
    + rewrite lookup_insert_eq. case_decide as Hd; [done|]. destruct Hd. by right.
    + rewrite Hk. case_decide as Hd; [|done].
      destruct Hd as [[? [=]]|?]; lia.
Qed.
End update_elem.

(** ** The contention counter *)

Lemma count_contention_nonzero victim aggressor (m : gmap Z Z) :
  victim ≠ 0 → aggressor ≠ 0 →
  cpu_hotspot.count_contention victim aggressor m =
  match m !! pair_key victim aggressor with
  | Some cnt => <[pair_key victim aggressor := to_u64 (cnt + 1)]> m
  | None =>
      (bpf_map_update_elem cpu_hotspot.cpu_contention_max_entries m
         (pair_key victim aggressor) 1).2
  end.
Proof.
  intros Hv Ha. unfold cpu_hotspot.count_contention.
  rewrite !bool_decide_eq_true_2 by done. reflexivity.
Qed.

Lemma count_contention_zero victim aggressor (m : gmap Z Z) :
  victim = 0 ∨ aggressor = 0 →
  cpu_hotspot.count_contention victim aggressor m = m.
Proof.
  intros Hz. unfold cpu_hotspot.count_contention.
  destruct Hz as [-> | ->]; [done|].
  by rewrite andb_false_r.
Qed.

Lemma count_contention_other victim aggressor (m : gmap Z Z) key :
  key ≠ pair_key victim aggressor →
  cpu_hotspot.count_contention victim aggressor m !! key = m !! key.
Proof.
  intros Hne.
  destruct (decide (victim = 0)) as [?|Hv];
    [by rewrite count_contention_zero by auto|].
  destruct (decide (aggressor = 0)) as [?|Ha];
    [by rewrite count_contention_zero by auto|].
  rewrite count_contention_nonzero by done.
  destruct (m !! pair_key victim aggressor).
  - by rewrite lookup_insert_ne.
  - by apply update_elem_other.
Qed.

Lemma count_contention_at victim aggressor (m : gmap Z Z) :
  victim ≠ 0 → aggressor ≠ 0 →
  cpu_hotspot.count_contention victim aggressor m !! pair_key victim aggressor =
  match m !! pair_key victim aggressor with
  | Some cnt => Some (to_u64 (cnt + 1))
  | None =>
      if decide (Z.of_nat (size m) < cpu_hotspot.cpu_contention_max_entries)
      then Some 1 else None
  end.
Proof.
  intros Hv Ha. rewrite count_contention_nonzero by done.
  destruct (m !! pair_key victim aggressor) as [cnt|] eqn:Hk.
  - by rewrite lookup_insert_eq.
  - rewrite update_elem_lookup, Hk.
    case_decide as H1; case_decide as H2; try done.
    + destruct H1 as [[? [=]]|?]; done.
    + destruct H1. by right.
Qed.

(** C5. A context switch with non-zero victim and aggressor changes the
    contention map at the key [(victim << 32) | aggressor] and nowhere
    else: a counter found there goes up by one (in [u64]), a missing one is
    inserted with count 1 (by [bpf_map_update_elem], so only while the map
    has room).  Every other key keeps its entry; the reversed key
    [(aggressor << 32) | victim] is another key whenever the two ids differ,
    and keeps its entry. *)
Theorem C5_contention_directional (k : kernel.t)
    (ctx : trace_event_raw_sched_switch.t) (m : cpu_hotspot.maps) :
  let victim := to_u32 (trace_event_raw_sched_switch.prev_pid ctx) in
  let aggressor := to_u32 (trace_event_raw_sched_switch.next_pid ctx) in
  let cc := cpu_hotspot.cpu_contention m in
  let cc' := cpu_hotspot.cpu_contention (cpu_hotspot.handle_sched_switch k ctx m).2 in
  victim ≠ 0 → aggressor ≠ 0 →
  cc' !! pair_key victim aggressor
    = match cc !! pair_key victim aggressor with
      | Some cnt => Some (to_u64 (cnt + 1))
      | None =>
          if decide (Z.of_nat (size cc) < cpu_hotspot.cpu_contention_max_entries)
          then Some 1 else None
      end
  ∧ (∀ key, key ≠ pair_key victim aggressor → cc' !! key = cc !! key)
  ∧ (victim ≠ aggressor →
       pair_key aggressor victim ≠ pair_key victim aggressor
       ∧ cc' !! pair_key aggressor victim = cc !! pair_key aggressor victim).
Proof.
  intros victim aggressor cc cc' Hv Ha. subst cc'.
  rewrite handle_sched_switch_unfold. simpl. fold victim aggressor cc.
  split; [by apply count_contention_at|].
  split; [intros key Hkey; by apply count_contention_other|].
  intros Hne.
  assert (pair_key aggressor victim ≠ pair_key victim aggressor) as Hrev.
  { intros Heq. apply pair_key_inj in Heq as [? ?]; try apply to_u32_range. done. }
  split; [done|]. by apply count_contention_other.
Qed.

Lemma C5_witness :
  let m := cpu_hotspot.mk (λ _, cpu_state.mk 0 0) ∅ {[ pair_key 7 5 := 4 ]} in
  let ctx := trace_event_raw_sched_switch.mk 5 7 in
  let m' := (cpu_hotspot.handle_sched_switch (kernel.mk 100 0%nat None) ctx m).2 in
  cpu_hotspot.cpu_contention m' !! pair_key 5 7 = Some 1
  ∧ cpu_hotspot.cpu_contention m' !! pair_key 7 5 = Some 4.
Proof.
  intros m ctx m'.
  destruct (C5_contention_directional (kernel.mk 100 0%nat None) ctx m)
    as (Hat & _ & Hrev); [vm_compute; congruence | vm_compute; congruence |].
  split.
  - exact Hat.
  - destruct Hrev as [_ Hrev]; [vm_compute; congruence|]. exact Hrev.
Defined.

(** ** The CPU-time accumulator *)

Lemma account_idle k ts st (m : gmap Z pid_stat.t) :
  cpu_state.pid st = 0 → cpu_hotspot.account k ts st m = m.
Proof. intros H0. unfold cpu_hotspot.account. by rewrite H0. Qed.

Lemma account_present k ts st (m : gmap Z pid_stat.t) ps :
  cpu_state.pid st ≠ 0 → m !! cpu_state.pid st = Some ps →
  cpu_hotspot.account k ts st m
  = <[cpu_state.pid st := accounted k (to_u64 (ts - cpu_state.ts st)) ps]> m.
Proof.
  intros Hp Hk. unfold cpu_hotspot.account, bpf_map_lookup_elem.
  rewrite bool_decide_eq_true_2 by done. by rewrite Hk.
Qed.

Lemma account_absent k ts st (m : gmap Z pid_stat.t) :
  cpu_state.pid st ≠ 0 → m !! cpu_state.pid st = None →
  cpu_hotspot.account k ts st m
  = (bpf_map_update_elem cpu_hotspot.pid_stats_max_entries m (cpu_state.pid st)
       (first_seen k (to_u64 (ts - cpu_state.ts st)))).2.
Proof.
  intros Hp Hk. unfold cpu_hotspot.account, bpf_map_lookup_elem.
  rewrite bool_decide_eq_true_2 by done. by rewrite Hk.
Qed.

Lemma account_other k ts st (m : gmap Z pid_stat.t) key :
  key ≠ cpu_state.pid st → cpu_hotspot.account k ts st m !! key = m !! key.
Proof.
  intros Hne. destruct (decide (cpu_state.pid st = 0)) as [H0|H0].
  { by rewrite account_idle. }
  destruct (m !! cpu_state.pid st) as [ps|] eqn:Hk.
  - rewrite (account_present _ _ _ _ ps) by done. by rewrite lookup_insert_ne.
  - rewrite account_absent by done. by apply update_elem_other.
Qed.

(** ** The fault counter *)

Lemma record_fault_ret k (m : gmap Z fault_stat.t) :
  (memory_faults.record_fault k m).1 = 0.
Proof.
  unfold memory_faults.record_fault. case_bool_decide; [done|].
  by destruct (bpf_map_lookup_elem _ _).
Qed.

Lemma record_fault_idle k (m : gmap Z fault_stat.t) :
  fault_pid k = 0 → (memory_faults.record_fault k m).2 = m.
Proof.
  unfold fault_pid, memory_faults.record_fault. intros ->. done.
Qed.

Lemma record_fault_present k (m : gmap Z fault_stat.t) entry :
  fault_pid k ≠ 0 → m !! fault_pid k = Some entry →
  (memory_faults.record_fault k m).2 = <[fault_pid k := faulted k entry]> m.
Proof.
  unfold fault_pid, memory_faults.record_fault, bpf_map_lookup_elem.
  intros Hp Hk. rewrite bool_decide_eq_false_2 by done. by rewrite Hk.
Qed.

Lemma record_fault_absent k (m : gmap Z fault_stat.t) :
  fault_pid k ≠ 0 → m !! fault_pid k = None →
  (memory_faults.record_fault k m).2
  = (bpf_map_update_elem memory_faults.page_faults_max_entries m (fault_pid k)
       (first_fault k)).2.
Proof.
  unfold fault_pid, memory_faults.record_fault, bpf_map_lookup_elem.
  intros Hp Hk. rewrite bool_decide_eq_false_2 by done. by rewrite Hk.
Qed.

Lemma record_fault_other k (m : gmap Z fault_stat.t) key :
  key ≠ fault_pid k → (memory_faults.record_fault k m).2 !! key = m !! key.
Proof.
  intros Hne. destruct (decide (fault_pid k = 0)) as [H0|H0].
  { by rewrite record_fault_idle. }
  destruct (m !! fault_pid k) as [entry|] eqn:Hk.
  - rewrite (record_fault_present _ _ entry) by done. by rewrite lookup_insert_ne.
  - rewrite record_fault_absent by done. by apply update_elem_other.
Qed.

Lemma retval_zero s e : retval s e = 0.
Proof.
  destruct e as [k ctx|k]; unfold retval.
  - by rewrite handle_sched_switch_unfold.
  - apply record_fault_ret.
Qed.

(** ** Capacity *)

(** C6. No program ever returns an error to the event source, and for each of
    the three hash maps: when the key of the upsert is new and the map
    already holds [max_entries] entries, the whole map is left as it was;
    when the key is present, its counter is updated however full the map
    is. *)
Theorem C6_capacity_policy :
  (∀ s e, retval s e = 0)
  ∧ (∀ k ctx (m : cpu_hotspot.maps),
       let st := cpu_hotspot.cpu_state m (kernel.cpu k) in
       let pid := cpu_state.pid st in
       let delta := to_u64 (bpf_ktime_get_ns k - cpu_state.ts st) in
       let m' := (cpu_hotspot.handle_sched_switch k ctx m).2 in
       pid ≠ 0 →
       (cpu_hotspot.pid_stats m !! pid = None →
        cpu_hotspot.pid_stats_max_entries ≤ Z.of_nat (size (cpu_hotspot.pid_stats m)) →
        cpu_hotspot.pid_stats m' = cpu_hotspot.pid_stats m)
       ∧ (∀ ps, cpu_hotspot.pid_stats m !! pid = Some ps →
            ∃ ps', cpu_hotspot.pid_stats m' !! pid = Some ps'
                   ∧ pid_stat.cpu_time_ns ps'
                     = to_u64 (pid_stat.cpu_time_ns ps + delta)))
  ∧ (∀ k ctx (m : cpu_hotspot.maps),
       let victim := to_u32 (trace_event_raw_sched_switch.prev_pid ctx) in
       let aggressor := to_u32 (trace_event_raw_sched_switch.next_pid ctx) in
       let m' := (cpu_hotspot.handle_sched_switch k ctx m).2 in
       victim ≠ 0 → aggressor ≠ 0 →
       (cpu_hotspot.cpu_contention m !! pair_key victim aggressor = None →
        cpu_hotspot.cpu_contention_max_entries
          ≤ Z.of_nat (size (cpu_hotspot.cpu_contention m)) →
        cpu_hotspot.cpu_contention m' = cpu_hotspot.cpu_contention m)
       ∧ (∀ cnt, cpu_hotspot.cpu_contention m !! pair_key victim aggressor = Some cnt →
            cpu_hotspot.cpu_contention m' !! pair_key victim aggressor
            = Some (to_u64 (cnt + 1))))
  ∧ (∀ k (m : gmap Z fault_stat.t),
       let pid := fault_pid k in
       let m' := (memory_faults.handle_mm_fault_kprobe k m).2 in
       pid ≠ 0 →
       (m !! pid = None →
        memory_faults.page_faults_max_entries ≤ Z.of_nat (size m) →
        m' = m)
       ∧ (∀ entry, m !! pid = Some entry →
            ∃ entry', m' !! pid = Some entry'
                      ∧ fault_stat.faults entry'
                        = to_u64 (fault_stat.faults entry + 1))).
Proof.
  split; [exact retval_zero|]. split; [|split].
  - intros k ctx m st pid delta m' Hpid. subst m'.
    rewrite handle_sched_switch_unfold. cbn [snd cpu_hotspot.pid_stats].
    fold st. split.
    + intros Hk Hfull. rewrite account_absent by done.
      by rewrite update_elem_full.
    + intros ps Hk. rewrite (account_present _ _ _ _ ps) by done.
      eexists. rewrite lookup_insert_eq. split; [done|]. reflexivity.
  - intros k ctx m victim aggressor m' Hv Ha. subst m'.
    rewrite handle_sched_switch_unfold. cbn [snd cpu_hotspot.cpu_contention].
    fold victim aggressor. split.
    + intros Hk Hfull. rewrite count_contention_nonzero by done. rewrite Hk.
      by rewrite update_elem_full.
    + intros cnt Hk. rewrite count_contention_at by done. by rewrite Hk.
  - intros k m pid m' Hpid. subst m'.
    unfold memory_faults.handle_mm_fault_kprobe. split.
    + intros Hk Hfull. rewrite record_fault_absent by done.
      by rewrite update_elem_full.
    + intros entry Hk. rewrite (record_fault_present _ _ entry) by done.
      eexists. rewrite lookup_insert_eq. split; [done|]. reflexivity.
Qed.

Section full_of.
Context {V : Type} (key : Z → Z) `{!Inj (=) (=) key} (v : V) (n : Z).

Lemma full_of_keys : ((λ i, (key i, v)) <$> seqZ 1 n).*1 = key <$> seqZ 1 n.
Proof. rewrite <- list_fmap_compose. by apply list_fmap_ext. Qed.

Lemma full_of_size : 0 ≤ n → Z.of_nat (size (full_of key v n)) = n.
Proof.
  intros Hn. unfold full_of. rewrite map_size_list_to_map.
  - rewrite length_fmap, length_seqZ. lia.
  - rewrite full_of_keys. apply NoDup_fmap_2; [done|]. apply NoDup_seqZ.
Qed.

Lemma full_of_lookup i : 1 ≤ i ≤ n → full_of key v n !! key i = Some v.
Proof.
  intros Hi. unfold full_of. apply elem_of_list_to_map_1.
  - rewrite full_of_keys. apply NoDup_fmap_2; [done|]. apply NoDup_seqZ.
  - apply list_elem_of_fmap. exists i. split; [done|]. apply elem_of_seqZ. lia.
Qed.

Lemma full_of_lookup_None k :
  (∀ i, 1 ≤ i ≤ n → key i ≠ k) → full_of key v n !! k = None.
Proof.
  intros Hk. unfold full_of. apply not_elem_of_list_to_map_1.
  rewrite full_of_keys. intros (i & -> & Hi)%list_elem_of_fmap.
  apply elem_of_seqZ in Hi. apply (Hk i); [lia|done].
Qed.
End full_of.

#[local] Instance add_inj (a : Z) : Inj (=) (=) (λ i, a + i).
Proof. intros x y. lia. Qed.

Lemma full_pid_stats_facts :
  Z.of_nat (size full_pid_stats) = cpu_hotspot.pid_stats_max_entries
  ∧ full_pid_stats !! 70000 = None
  ∧ full_pid_stats !! 5 = Some pid_stat.zero.
Proof.
  split; [|split].
  - by apply (full_of_size id).
  - apply (full_of_lookup_None id). unfold id, cpu_hotspot.pid_stats_max_entries. lia.
  - apply (full_of_lookup id _ _ 5). unfold cpu_hotspot.pid_stats_max_entries. lia.
Qed.

Lemma full_cpu_contention_facts :
  Z.of_nat (size full_cpu_contention) = cpu_hotspot.cpu_contention_max_entries
  ∧ full_cpu_contention !! pair_key 70000 5 = None
  ∧ full_cpu_contention !! pair_key 1 5 = Some 1.
Proof.
  rewrite !pair_key_add by lia. split; [|split].
  - by apply (full_of_size (λ i, 2 ^ 32 + i)).
  - apply (full_of_lookup_None (λ i, 2 ^ 32 + i)).
    unfold cpu_hotspot.cpu_contention_max_entries. lia.
  - apply (full_of_lookup (λ i, 2 ^ 32 + i) _ _ 5).
    unfold cpu_hotspot.cpu_contention_max_entries. lia.
Qed.

Lemma full_page_faults_facts :
  Z.of_nat (size full_page_faults) = memory_faults.page_faults_max_entries
  ∧ full_page_faults !! 70000 = None
  ∧ full_page_faults !! 5 = Some fault_stat.zero.
Proof.
  split; [|split].
  - by apply (full_of_size id).
  - apply (full_of_lookup_None id). unfold id, memory_faults.page_faults_max_entries. lia.
  - apply (full_of_lookup id _ _ 5). unfold memory_faults.page_faults_max_entries. lia.
Qed.

Lemma C6_witness :
  let k := kernel.mk 110 0%nat (Some (task_struct.mk 70000 70000 [] None)) in
  let k5 := kernel.mk 110 0%nat (Some (task_struct.mk 5 5 [] None)) in
  (* new keys, full maps *)
  let m := cpu_hotspot.mk (λ _, cpu_state.mk 70000 10) full_pid_stats full_cpu_contention in
  let m' := (cpu_hotspot.handle_sched_switch k (trace_event_raw_sched_switch.mk 70000 5) m).2 in
  (* present keys, full maps *)
  let n := cpu_hotspot.mk (λ _, cpu_state.mk 5 10) full_pid_stats full_cpu_contention in
  let n' := (cpu_hotspot.handle_sched_switch k (trace_event_raw_sched_switch.mk 1 5) n).2 in
  cpu_hotspot.pid_stats m' = full_pid_stats
  ∧ cpu_hotspot.cpu_contention m' = full_cpu_contention
  ∧ (memory_faults.handle_mm_fault_kprobe k full_page_faults).2 = full_page_faults
  ∧ (∃ ps', cpu_hotspot.pid_stats n' !! 5 = Some ps'
            ∧ pid_stat.cpu_time_ns ps' = to_u64 (0 + to_u64 (to_u64 110 - 10)))
  ∧ cpu_hotspot.cpu_contention n' !! pair_key 1 5 = Some (to_u64 (1 + 1))
  ∧ (∃ e', (memory_faults.handle_mm_fault_kprobe k5 full_page_faults).2 !! 5 = Some e'
           ∧ fault_stat.faults e' = to_u64 (0 + 1)).
Proof.
  intros k k5 m m' n n'. subst m' n' m n.
  destruct full_pid_stats_facts as (Sps & Nps & Pps).
  destruct full_cpu_contention_facts as (Scc & Ncc & Pcc).
  destruct full_page_faults_facts as (Spf & Npf & Ppf).
  (* the proof uses the three maps through these facts only *)
  revert Sps Nps Pps Scc Ncc Pcc Spf Npf Ppf.
  generalize full_pid_stats as ps, full_cpu_contention as cc, full_page_faults as pf.
  intros ps cc pf Sps Nps Pps Scc Ncc Pcc Spf Npf Ppf.
  destruct C6_capacity_policy as (_ & Hps & Hcc & Hpf).
  assert (fault_pid k = 70000) as Fk by (vm_compute; reflexivity).
  assert (fault_pid k5 = 5) as Fk5 by (vm_compute; reflexivity).
  assert (to_u32 70000 = 70000) as U7 by (vm_compute; reflexivity).
  assert (to_u32 5 = 5) as U5 by (vm_compute; reflexivity).
  assert (to_u32 1 = 1) as U1 by (vm_compute; reflexivity).
  split; [|split; [|split; [|split; [|split]]]].
  - pose proof (Hps k (trace_event_raw_sched_switch.mk 70000 5)
                  (cpu_hotspot.mk (λ _, cpu_state.mk 70000 10) ps cc)) as H.
    cbn [cpu_hotspot.pid_stats cpu_hotspot.cpu_state cpu_state.pid cpu_state.ts] in H.
    refine (proj1 (H _) Nps _); [lia | rewrite Sps; lia].
  - pose proof (Hcc k (trace_event_raw_sched_switch.mk 70000 5)
                  (cpu_hotspot.mk (λ _, cpu_state.mk 70000 10) ps cc)) as H.
    cbn [trace_event_raw_sched_switch.prev_pid trace_event_raw_sched_switch.next_pid
         cpu_hotspot.cpu_contention] in H.
    rewrite U7, U5 in H.
    refine (proj1 (H _ _) Ncc _); [lia | lia | rewrite Scc; lia].
  - pose proof (Hpf k pf) as H. rewrite Fk in H.
    refine (proj1 (H _) Npf _); [lia | rewrite Spf; lia].
  - pose proof (Hps k (trace_event_raw_sched_switch.mk 1 5)
                  (cpu_hotspot.mk (λ _, cpu_state.mk 5 10) ps cc)) as H.
    cbn [cpu_hotspot.pid_stats cpu_hotspot.cpu_state cpu_state.pid cpu_state.ts
         pid_stat.cpu_time_ns pid_stat.zero bpf_ktime_get_ns kernel.ktime_ns k] in H.
    refine (proj2 (H _) pid_stat.zero Pps). lia.
  - pose proof (Hcc k (trace_event_raw_sched_switch.mk 1 5)
                  (cpu_hotspot.mk (λ _, cpu_state.mk 5 10) ps cc)) as H.
    cbn [trace_event_raw_sched_switch.prev_pid trace_event_raw_sched_switch.next_pid
         cpu_hotspot.cpu_contention] in H.
    rewrite U1, U5 in H.
    refine (proj2 (H _ _) 1 Pcc); lia.
  - pose proof (Hpf k5 pf) as H. rewrite Fk5 in H.
    refine (proj2 (H _) fault_stat.zero Ppf). lia.
Defined.

(** ** Id 0 is never a key *)

Lemma pair_key_halves v a :
  0 ≤ v < 2 ^ 32 → 0 ≤ a < 2 ^ 32 →
  victim_of (pair_key v a) = v ∧ aggressor_of (pair_key v a) = a.
Proof.
  intros Hv Ha. unfold victim_of, aggressor_of, pair_key.
  rewrite pack_u64 by done. split; [by apply pack_hi | by apply pack_lo].
Qed.

Lemma step_pid_stats_zero s e :
  cpu_hotspot.pid_stats (hotspot (step s e)) !! 0
  = cpu_hotspot.pid_stats (hotspot s) !! 0.
Proof.
  destruct e as [k ctx|k]; cbn [step hotspot]; [|done].
  rewrite handle_sched_switch_unfold. cbn [snd cpu_hotspot.pid_stats].
  destruct (decide (cpu_state.pid (cpu_hotspot.cpu_state (hotspot s) (kernel.cpu k)) = 0))
    as [H0|H0].
  - by rewrite account_idle.
  - apply account_other. congruence.
Qed.

Lemma step_page_faults_zero s e :
  page_faults (step s e) !! 0 = page_faults s !! 0.
Proof.
  destruct e as [k ctx|k]; cbn [step page_faults]; [done|].
  unfold memory_faults.handle_mm_fault_kprobe.
  destruct (decide (fault_pid k = 0)) as [H0|H0].
  - by rewrite record_fault_idle.
  - apply record_fault_other. congruence.
Qed.

Lemma step_cpu_contention_bad_key s e key :
  victim_of key = 0 ∨ aggressor_of key = 0 →
  cpu_hotspot.cpu_contention (hotspot (step s e)) !! key
  = cpu_hotspot.cpu_contention (hotspot s) !! key.
Proof.
  intros Hbad. destruct e as [k ctx|k]; cbn [step hotspot]; [|done].
  rewrite handle_sched_switch_unfold. cbn [snd cpu_hotspot.cpu_contention].
  set (v := to_u32 (trace_event_raw_sched_switch.prev_pid ctx)).
  set (a := to_u32 (trace_event_raw_sched_switch.next_pid ctx)).
  destruct (decide (v = 0)) as [?|Hv]; [by rewrite count_contention_zero by auto|].
  destruct (decide (a = 0)) as [?|Ha]; [by rewrite count_contention_zero by auto|].
  apply count_contention_other. intros ->.
  destruct (pair_key_halves v a) as [Hhi Hlo]; [apply to_u32_range..|].
  destruct Hbad; congruence.
Qed.

Lemma run_app s evs evs' : run s (evs ++ evs') = run (run s evs) evs'.
Proof. apply foldl_app. Qed.

Lemma run_cons s e evs : run s (e :: evs) = run (step s e) evs.
Proof. reflexivity. Qed.

Lemma run_pid_stats_zero evs : ∀ s,
  cpu_hotspot.pid_stats (hotspot (run s evs)) !! 0
  = cpu_hotspot.pid_stats (hotspot s) !! 0.
Proof.
  induction evs as [|e evs IH]; intros s; [done|].
  rewrite run_cons, IH. apply step_pid_stats_zero.
Qed.

Lemma run_page_faults_zero evs : ∀ s,
  page_faults (run s evs) !! 0 = page_faults s !! 0.
Proof.
  induction evs as [|e evs IH]; intros s; [done|].
  rewrite run_cons, IH. apply step_page_faults_zero.
Qed.

Lemma run_cpu_contention_bad_key evs key : ∀ s,
  victim_of key = 0 ∨ aggressor_of key = 0 →
  cpu_hotspot.cpu_contention (hotspot (run s evs)) !! key
  = cpu_hotspot.cpu_contention (hotspot s) !! key.
Proof.
  induction evs as [|e evs IH]; intros s Hbad; [done|].
  rewrite run_cons, IH by done. by apply step_cpu_contention_bad_key.
Qed.

(** C2. Over any sequence of events, from any state of the maps: a key that
    the sequence inserted into [pid_stats] or into [page_faults] is not 0,
    and a key that it inserted into [cpu_contention] has a non-zero upper
    half (victim) and a non-zero lower half (aggressor). *)
Theorem C2_zero_never_a_key (s : system) (evs : list event) (key : Z) :
  (inserted (cpu_hotspot.pid_stats (hotspot s))
            (cpu_hotspot.pid_stats (hotspot (run s evs))) key → key ≠ 0)
  ∧ (inserted (page_faults s) (page_faults (run s evs)) key → key ≠ 0)
  ∧ (inserted (cpu_hotspot.cpu_contention (hotspot s))
              (cpu_hotspot.cpu_contention (hotspot (run s evs))) key →
     victim_of key ≠ 0 ∧ aggressor_of key ≠ 0).
Proof.
  split; [|split].
  - intros [Hnone [x Hsome]] ->. rewrite run_pid_stats_zero in Hsome. congruence.
  - intros [Hnone [x Hsome]] ->. rewrite run_page_faults_zero in Hsome. congruence.
  - intros [Hnone [x Hsome]].
    destruct (decide (victim_of key = 0)) as [H0|H0].
    { rewrite run_cpu_contention_bad_key in Hsome by auto. congruence. }
    destruct (decide (aggressor_of key = 0)) as [H1|H1].
    { rewrite run_cpu_contention_bad_key in Hsome by auto. congruence. }
    done.
Qed.

Lemma C2_witness :
  let evs := [sample_switch 100 3 42; sample_switch 150 42 7;
              sample_fault (detached_task 9)] in
  (inserted (cpu_hotspot.pid_stats (hotspot boot))
            (cpu_hotspot.pid_stats (hotspot (run boot evs))) 42 ∧ 42 ≠ 0)
  ∧ (inserted (page_faults boot) (page_faults (run boot evs)) 9 ∧ 9 ≠ 0)
  ∧ (inserted (cpu_hotspot.cpu_contention (hotspot boot))
              (cpu_hotspot.cpu_contention (hotspot (run boot evs))) (pair_key 42 7)
     ∧ victim_of (pair_key 42 7) ≠ 0 ∧ aggressor_of (pair_key 42 7) ≠ 0).
Proof.
  intros evs.
  assert (inserted (cpu_hotspot.pid_stats (hotspot boot))
            (cpu_hotspot.pid_stats (hotspot (run boot evs))) 42) as H1.
  { split; [reflexivity|]. vm_compute. by eexists. }
  assert (inserted (page_faults boot) (page_faults (run boot evs)) 9) as H2.
  { split; [reflexivity|]. vm_compute. by eexists. }
  assert (inserted (cpu_hotspot.cpu_contention (hotspot boot))
            (cpu_hotspot.cpu_contention (hotspot (run boot evs))) (pair_key 42 7)) as H3.
  { split; [reflexivity|]. vm_compute. by eexists. }
  split; [|split].
  - split; [exact H1|]. exact (proj1 (C2_zero_never_a_key boot evs 42) H1).
  - split; [exact H2|]. exact (proj1 (proj2 (C2_zero_never_a_key boot evs 9)) H2).
  - split; [exact H3|].
    exact (proj2 (proj2 (C2_zero_never_a_key boot evs (pair_key 42 7))) H3).
Defined.

(** ** Frozen fields *)

Lemma step_pid_stats_frozen s e key ps :
  cpu_hotspot.pid_stats (hotspot s) !! key = Some ps →
  ∃ ps', cpu_hotspot.pid_stats (hotspot (step s e)) !! key = Some ps'
         ∧ (first_is_nul (pid_stat.cgroup ps) = false →
            pid_stat.cgroup ps' = pid_stat.cgroup ps)
         ∧ (first_is_nul (pid_stat.comm ps) = false →
            pid_stat.comm ps' = pid_stat.comm ps).
Proof.
  intros Hk. destruct e as [k ctx|k]; cbn [step hotspot]; [|by eauto].
  rewrite handle_sched_switch_unfold. cbn [snd cpu_hotspot.pid_stats].
  set (st := cpu_hotspot.cpu_state (hotspot s) (kernel.cpu k)).
  destruct (decide (key = cpu_state.pid st)) as [->|Hne];
    [|rewrite account_other by done; by eauto].
  destruct (decide (cpu_state.pid st = 0)) as [H0|H0];
    [rewrite account_idle by done; by eauto|].
  rewrite (account_present _ _ _ _ ps) by done. rewrite lookup_insert_eq.
  eexists. split; [done|]. unfold accounted. cbn [pid_stat.cgroup pid_stat.comm].
  split; by intros ->.
Qed.

Lemma step_page_faults_frozen s e key entry :
  page_faults s !! key = Some entry →
  ∃ entry', page_faults (step s e) !! key = Some entry'
            ∧ (first_is_nul (fault_stat.cgroup entry) = false →
               fault_stat.cgroup entry' = fault_stat.cgroup entry).
Proof.
  intros Hk. destruct e as [k ctx|k]; cbn [step page_faults]; [by eauto|].
  unfold memory_faults.handle_mm_fault_kprobe.
  destruct (decide (key = fault_pid k)) as [->|Hne];
    [|rewrite record_fault_other by done; by eauto].
  destruct (decide (fault_pid k = 0)) as [H0|H0];
    [rewrite record_fault_idle by done; by eauto|].
  rewrite (record_fault_present _ _ entry) by done. rewrite lookup_insert_eq.
  eexists. split; [done|]. unfold faulted. cbn [fault_stat.cgroup].
  by intros ->.
Qed.

Lemma run_pid_stats_frozen evs : ∀ s key ps,
  cpu_hotspot.pid_stats (hotspot s) !! key = Some ps →
  ∃ ps', cpu_hotspot.pid_stats (hotspot (run s evs)) !! key = Some ps'
         ∧ (first_is_nul (pid_stat.cgroup ps) = false →
            pid_stat.cgroup ps' = pid_stat.cgroup ps)
         ∧ (first_is_nul (pid_stat.comm ps) = false →
            pid_stat.comm ps' = pid_stat.comm ps).
Proof.
  induction evs as [|e evs IH]; intros s key ps Hk; [by eauto|].
  destruct (step_pid_stats_frozen s e key ps Hk) as (ps1 & Hk1 & Hcg1 & Hcm1).
  destruct (IH (step s e) key ps1 Hk1) as (ps2 & Hk2 & Hcg2 & Hcm2).
  exists ps2. rewrite run_cons. split; [done|]. split.
  - intros Hne. rewrite <- (Hcg1 Hne). apply Hcg2. by rewrite (Hcg1 Hne).
  - intros Hne. rewrite <- (Hcm1 Hne). apply Hcm2. by rewrite (Hcm1 Hne).
Qed.

Lemma run_page_faults_frozen evs : ∀ s key entry,
  page_faults s !! key = Some entry →
  ∃ entry', page_faults (run s evs) !! key = Some entry'
            ∧ (first_is_nul (fault_stat.cgroup entry) = false →
               fault_stat.cgroup entry' = fault_stat.cgroup entry).
Proof.
  induction evs as [|e evs IH]; intros s key entry Hk; [by eauto|].
  destruct (step_page_faults_frozen s e key entry Hk) as (e1 & Hk1 & Hcg1).
  destruct (IH (step s e) key e1 Hk1) as (e2 & Hk2 & Hcg2).
  exists e2. rewrite run_cons. split; [done|].
  intros Hne. rewrite <- (Hcg1 Hne). apply Hcg2. by rewrite (Hcg1 Hne).
Qed.

(** C3. For every key and every sequence of events: a [cgroup] or [comm]
    field of the key's record whose first byte is not NUL (the sentinel
    included) is the same after the sequence, in [pid_stats] and in
    [page_faults]; and an event for a key that has a record re-runs the
    resolution (the capture of the name) exactly when the field is still
    empty, otherwise it leaves the field as it is. *)
Theorem C3_fields_frozen (s : system) (evs : list event) (key : Z) :
  (∀ ps, cpu_hotspot.pid_stats (hotspot s) !! key = Some ps →
     ∃ ps', cpu_hotspot.pid_stats (hotspot (run s evs)) !! key = Some ps'
            ∧ (first_is_nul (pid_stat.cgroup ps) = false →
               pid_stat.cgroup ps' = pid_stat.cgroup ps)
            ∧ (first_is_nul (pid_stat.comm ps) = false →
               pid_stat.comm ps' = pid_stat.comm ps))
  ∧ (∀ entry, page_faults s !! key = Some entry →
       ∃ entry', page_faults (run s evs) !! key = Some entry'
                 ∧ (first_is_nul (fault_stat.cgroup entry) = false →
                    fault_stat.cgroup entry' = fault_stat.cgroup entry))
  ∧ (∀ k ctx ps,
       cpu_state.pid (cpu_hotspot.cpu_state (hotspot s) (kernel.cpu k)) = key →
       key ≠ 0 →
       cpu_hotspot.pid_stats (hotspot s) !! key = Some ps →
       ∃ ps', cpu_hotspot.pid_stats (hotspot (step s (sched_switch k ctx))) !! key
              = Some ps'
              ∧ pid_stat.cgroup ps'
                = (if first_is_nul (pid_stat.cgroup ps)
                   then cgroup_or_placeholder k (pid_stat.cgroup ps) 64
                   else pid_stat.cgroup ps)
              ∧ pid_stat.comm ps'
                = (if first_is_nul (pid_stat.comm ps)
                   then (bpf_get_current_comm k (pid_stat.comm ps) 16).2
                   else pid_stat.comm ps))
  ∧ (∀ k entry,
       fault_pid k = key → key ≠ 0 →
       page_faults s !! key = Some entry →
       ∃ entry', page_faults (step s (page_fault k)) !! key = Some entry'
                 ∧ fault_stat.cgroup entry'
                   = (if first_is_nul (fault_stat.cgroup entry)
                      then cgroup_or_placeholder k (fault_stat.cgroup entry) 64
                      else fault_stat.cgroup entry)).
Proof.
  split; [intros ps; apply run_pid_stats_frozen|].
  split; [intros entry; apply run_page_faults_frozen|].
  split.
  - intros k ctx ps <- H0 Hk. cbn [step hotspot].
    rewrite handle_sched_switch_unfold. cbn [snd cpu_hotspot.pid_stats].
    rewrite (account_present _ _ _ _ ps) by done. rewrite lookup_insert_eq.
    eexists. split; [done|]. by unfold accounted.
  - intros k entry <- H0 Hk. cbn [step page_faults].
    unfold memory_faults.handle_mm_fault_kprobe.
    rewrite (record_fault_present _ _ entry) by done. rewrite lookup_insert_eq.
    eexists. split; [done|]. by unfold faulted.
Qed.

Lemma C3_witness :
  let s := run boot [sample_switch 100 3 42; sample_switch 150 42 7;
                     sample_fault (detached_task 9)] in
  let evs := [sample_switch 400 7 42;
              sched_switch
                (kernel.mk 500 0%nat
                   (Some (sample_task 42 (Some (kstr_at (list_byte_of_string "init.scope"))))))
                (trace_event_raw_sched_switch.mk 42 7);
              sample_fault (sample_task 9 (Some (kstr_at (list_byte_of_string "init.scope"))))] in
  (∃ ps', cpu_hotspot.pid_stats (hotspot (run s evs)) !! 42 = Some ps'
          ∧ pid_stat.cgroup ps'
            = pid_stat.cgroup (first_seen (kernel.mk 150 0%nat
                (Some (sample_task 42 (Some (kstr_at (list_byte_of_string "user.slice"))))))
                50))
  ∧ (∃ entry', page_faults (run s evs) !! 9 = Some entry'
               ∧ fault_stat.cgroup entry' = sentinel64).
Proof.
  intros s evs.
  destruct (C3_fields_frozen s evs 42) as (Hps & _).
  destruct (C3_fields_frozen s evs 9) as (_ & Hpf & _).
  split.
  - destruct (Hps (first_seen (kernel.mk 150 0%nat
                (Some (sample_task 42 (Some (kstr_at (list_byte_of_string "user.slice"))))))
                50)) as (ps' & Hk & Hcg & _); [by vm_compute|].
    exists ps'. split; [exact Hk|]. apply Hcg. by vm_compute.
  - destruct (Hpf (fault_stat.mk 1 sentinel64)) as (e' & Hk & Hcg);
      [by vm_compute|].
    exists e'. split; [exact Hk|]. apply Hcg. by vm_compute.
Defined.

(** ** Buffers *)

Lemma memset0_length dst len :
  length dst = len → length (memset0 dst len) = len.
Proof.
  intros <-. unfold memset0. rewrite drop_all, app_nil_r. apply length_replicate.
Qed.

Lemma memset0_exact dst len : length dst = len → memset0 dst len = zeroed len.
Proof. intros <-. unfold memset0. by rewrite drop_all, app_nil_r. Qed.

Lemma memset0_idemp dst len : memset0 (memset0 dst len) len = memset0 dst len.
Proof.
  unfold memset0. f_equal. rewrite drop_app_length'; [done|].
  by rewrite length_replicate.
Qed.

Lemma cstr_length s : (length (cstr s) ≤ length s)%nat.
Proof.
  induction s as [|b s IH]; simpl; [done|]. case_decide; simpl; lia.
Qed.

Lemma bpf_core_read_str_length dst len src :
  length dst = len → length (bpf_core_read_str dst len src).2 = len.
Proof.
  intros Hlen. unfold bpf_core_read_str. destruct len as [|n]; [done|].
  destruct src as [|s]; cbn [snd].
  - by apply memset0_length.
  - rewrite length_app. cbn [length]. rewrite length_drop, Hlen.
    pose proof (length_take_le (cstr s) n). 
    assert (length (take n (cstr s)) ≤ n)%nat by (rewrite length_take; lia).
    lia.
Qed.

Lemma bpf_core_read_str_ok dst len s :
  len ≠ 0%nat → 0 < (bpf_core_read_str dst len (kstr_at s)).1.
Proof. intros Hlen. destruct len; [done|]. cbn. lia. Qed.

Lemma bpf_core_read_str_fault dst len :
  len ≠ 0%nat →
  bpf_core_read_str dst len kstr_fault = (- EFAULT, memset0 dst len).
Proof. intros Hlen. by destruct len. Qed.

Lemma bpf_core_read_str_empty dst len s :
  len ≠ 0%nat → cstr s = [] →
  bpf_core_read_str (memset0 dst len) len (kstr_at s) = (1, memset0 dst len).
Proof.
  intros Hlen Hs. destruct len as [|n]; [done|].
  unfold bpf_core_read_str. rewrite Hs, take_nil. cbn [length app].
  reflexivity.
Qed.

Lemma snapshot_cgroup_length k dst len :
  length dst = len → length (snapshot_cgroup k dst len).2 = len.
Proof.
  intros Hlen. unfold snapshot_cgroup. case_decide; [done|].
  pose proof (memset0_length dst len Hlen) as Hz.
  repeat (match goal with
          | |- context [match ?o with Some _ => _ | None => _ end] =>
              destruct o; cbn [fst snd]; try done
          | |- context [if bool_decide ?P then _ else _] =>
              destruct (bool_decide P); cbn [fst snd]; try done
          end);
    by repeat apply bpf_core_read_str_length.
Qed.

Lemma write_placeholder_64 dst :
  length dst = 64%nat → write_placeholder dst 64 = sentinel64.
Proof.
  intros Hlen. unfold write_placeholder.
  rewrite decide_False by done. rewrite memset0_exact by done. reflexivity.
Qed.

Lemma cgroup_or_placeholder_fail k dst :
  length dst = 64%nat → (snapshot_cgroup k dst 64).1 = false →
  cgroup_or_placeholder k dst 64 = sentinel64.
Proof.
  intros Hlen Hfail. unfold cgroup_or_placeholder. rewrite Hfail.
  apply write_placeholder_64. by apply snapshot_cgroup_length.
Qed.

Lemma cgroup_or_placeholder_ok k dst len :
  (snapshot_cgroup k dst len).1 = true →
  cgroup_or_placeholder k dst len = (snapshot_cgroup k dst len).2.
Proof. intros Hok. unfold cgroup_or_placeholder. by rewrite Hok. Qed.

(** ** Scenario B *)

Lemma first_is_nul_sentinel64 : first_is_nul sentinel64 = false.
Proof. reflexivity. Qed.

Lemma faulted_sentinel k n :
  faulted k (fault_stat.mk n sentinel64) = fault_stat.mk (to_u64 (n + 1)) sentinel64.
Proof. reflexivity. Qed.

(** C8. Three page faults of entity 9 on fresh maps, the resolution failing
    at the first: after the first event the record is (1, "n/a" and 61 NUL
    bytes), after the second (2, the same bytes), after the third (3, the
    same bytes), whatever the resolver would return in the contexts of the
    second and third events, success included. *)
Theorem C8_scenario_B (k1 k2 k3 : kernel.t) :
  fault_pid k1 = 9 → fault_pid k2 = 9 → fault_pid k3 = 9 →
  (snapshot_cgroup k1 (zeroed 64) 64).1 = false →
  page_faults (run boot [page_fault k1]) !! 9
    = Some (fault_stat.mk 1 sentinel64)
  ∧ page_faults (run boot [page_fault k1; page_fault k2]) !! 9
    = Some (fault_stat.mk 2 sentinel64)
  ∧ page_faults (run boot [page_fault k1; page_fault k2; page_fault k3]) !! 9
    = Some (fault_stat.mk 3 sentinel64).
Proof.
  intros H1 H2 H3 Hfail.
  assert (page_faults (run boot [page_fault k1])
          = {[ 9 := fault_stat.mk 1 sentinel64 ]}) as E1.
  { unfold run. cbn [foldl step page_faults boot].
    unfold memory_faults.handle_mm_fault_kprobe.
    rewrite record_fault_absent by (rewrite H1; done).
    rewrite update_elem_room by (rewrite ?H1; done).
    cbn [snd]. rewrite H1. unfold first_fault.
    rewrite cgroup_or_placeholder_fail by done. done. }
  assert (page_faults (run boot [page_fault k1; page_fault k2])
          = {[ 9 := fault_stat.mk 2 sentinel64 ]}) as E2.
  { change [page_fault k1; page_fault k2] with ([page_fault k1] ++ [page_fault k2]).
    rewrite run_app. unfold run at 1. cbn [foldl step page_faults].
    rewrite E1. unfold memory_faults.handle_mm_fault_kprobe.
    rewrite (record_fault_present _ _ (fault_stat.mk 1 sentinel64))
      by (rewrite ?H2, ?lookup_singleton_eq; done).
    rewrite H2, faulted_sentinel. by rewrite insert_singleton_eq. }
  assert (page_faults (run boot [page_fault k1; page_fault k2; page_fault k3])
          = {[ 9 := fault_stat.mk 3 sentinel64 ]}) as E3.
  { change [page_fault k1; page_fault k2; page_fault k3]
      with ([page_fault k1; page_fault k2] ++ [page_fault k3]).
    rewrite run_app. unfold run at 1. cbn [foldl step page_faults].
    rewrite E2. unfold memory_faults.handle_mm_fault_kprobe.
    rewrite (record_fault_present _ _ (fault_stat.mk 2 sentinel64))
      by (rewrite ?H3, ?lookup_singleton_eq; done).
    rewrite H3, faulted_sentinel. by rewrite insert_singleton_eq. }
  rewrite E1, E2, E3. by rewrite !lookup_singleton_eq.
Qed.

Lemma C8_witness :
  let k1 := kernel.mk 10 0%nat (Some (task_struct.mk 9001 9 [] None)) in
  let ok := sample_task 9 (Some (kstr_at (list_byte_of_string "user.slice"))) in
  let k2 := kernel.mk 20 1%nat (Some ok) in
  let k3 := kernel.mk 30 0%nat (Some ok) in
  ((snapshot_cgroup k1 (zeroed 64) 64).1 = false
   ∧ (snapshot_cgroup k2 (zeroed 64) 64).1 = true
   ∧ (snapshot_cgroup k3 (zeroed 64) 64).1 = true)
  ∧ page_faults (run boot [page_fault k1]) !! 9
    = Some (fault_stat.mk 1 sentinel64)
  ∧ page_faults (run boot [page_fault k1; page_fault k2]) !! 9
    = Some (fault_stat.mk 2 sentinel64)
  ∧ page_faults (run boot [page_fault k1; page_fault k2; page_fault k3]) !! 9
    = Some (fault_stat.mk 3 sentinel64).
Proof.
  intros k1 ok k2 k3. split.
  - repeat split; vm_compute; reflexivity.
  - apply (C8_scenario_B k1 k2 k3); vm_compute; reflexivity.
Defined.

(** ** The resolver *)

Lemma snapshot_cgroup_no_leaf k dst len :
  len ≠ 0%nat → leaf_node k = None →
  snapshot_cgroup k dst len = (false, memset0 dst len).
Proof.
  intros Hlen. unfold leaf_node, snapshot_cgroup. rewrite decide_False by done.
  destruct (bpf_get_current_task_btf k) as [task|]; [|done]. cbn.
  destruct (task_struct.cgroups task) as [cset|]; [|done]. cbn.
  destruct (css_set.dfl_cgrp cset) as [cgrp|]; [|done]. cbn.
  by intros ->.
Qed.

Lemma snapshot_cgroup_at_leaf k dst len node :
  len ≠ 0%nat → leaf_node k = Some node →
  snapshot_cgroup k dst len
  = match resolved_name node with
    | Some s => (true, copied dst len s)
    | None => (false, memset0 dst len)
    end.
Proof.
  intros Hlen. unfold leaf_node, snapshot_cgroup. rewrite decide_False by done.
  destruct (bpf_get_current_task_btf k) as [task|]; [|done]. cbn.
  destruct (task_struct.cgroups task) as [cset|]; [|done]. cbn.
  destruct (css_set.dfl_cgrp cset) as [cgrp|]; [|done]. cbn.
  intros ->. unfold resolved_name, copied.
  assert (∀ (d : list byte) (p : option kernfs_node.t),
            match p with
            | Some parent_kn =>
                match kernfs_node.name parent_kn with
                | Some parent =>
                    (bool_decide (0 < (bpf_core_read_str (memset0 d len) len parent).1),
                     (bpf_core_read_str (memset0 d len) len parent).2)
                | None => (false, memset0 d len)
                end
            | None => (false, memset0 d len)
            end
            = match p ≫= (λ q, readable (kernfs_node.name q)) with
              | Some s => (true, (bpf_core_read_str (memset0 d len) len (kstr_at s)).2)
              | None => (false, memset0 d len)
              end) as Hparent.
  { intros d [q|]; [|done]. cbn. destruct (kernfs_node.name q) as [[|s]|]; cbn.
    - rewrite bpf_core_read_str_fault by done. cbn [fst snd].
      rewrite bool_decide_eq_false_2 by (unfold EFAULT; lia).
      by rewrite memset0_idemp.
    - rewrite bool_decide_eq_true_2; [done|]. by apply bpf_core_read_str_ok.
    - done. }
  destruct (kernfs_node.name node) as [[|s]|]; cbn [readable].
  - rewrite bpf_core_read_str_fault by done. cbn [fst snd].
    rewrite bool_decide_eq_false_2 by (unfold EFAULT; lia).
    rewrite (Hparent (memset0 dst len)). by rewrite memset0_idemp.
  - rewrite bool_decide_eq_true_2; [done|]. by apply bpf_core_read_str_ok.
  - apply Hparent.
Qed.

Lemma copied_exact dst len s :
  length dst = len → len ≠ 0%nat →
  copied dst len s
  = take (len - 1) (cstr s)
    ++ replicate (len - length (take (len - 1) (cstr s))) NUL.
Proof.
  intros Hdst Hlen. unfold copied. rewrite memset0_exact by done.
  destruct len as [|n]; [done|]. cbn [bpf_core_read_str snd].
  rewrite Nat.sub_succ, Nat.sub_0_r.
  set (body := take n (cstr s)).
  assert (length body ≤ n)%nat as Hb by (unfold body; rewrite length_take; lia).
  f_equal. unfold zeroed. rewrite drop_replicate.
  replace (S n - length body)%nat with (S (n - length body)) by lia.
  cbn [replicate]. repeat f_equal.
Qed.

Lemma copied_empty dst len s :
  len ≠ 0%nat → cstr s = [] → copied dst len s = memset0 dst len.
Proof.
  intros Hlen Hs. unfold copied. by rewrite bpf_core_read_str_empty.
Qed.

Lemma nonempty_name_readable p s :
  readable p = Some s → cstr s ≠ [] → nonempty_name p = Some s.
Proof.
  intros Hp Hs. unfold nonempty_name. rewrite Hp. by rewrite decide_False.
Qed.

Lemma nonempty_name_unreadable p : readable p = None → nonempty_name p = None.
Proof. intros Hp. unfold nonempty_name. by rewrite Hp. Qed.

(** C4, amended.  With a buffer of at least one byte, [snapshot_cgroup] zeroes
    the buffer and walks task, [cgroups], [dfl_cgrp], [kn]; it fails when one
    of them is NULL.  At the node it succeeds with the leaf's name as soon as
    the name pointer is non-NULL and readable, an empty name included (the
    buffer then stays all NUL); only when the leaf's name pointer is NULL or
    faults does it go to the parent, once, and succeed with the parent's name
    under the same test, failing when the parent or its name is missing.
    The name written is cut to [len - 1] bytes and NUL-padded.  Where no name
    on the way is the empty string, this is the resolver of the
    specification. *)
Theorem C4_resolver_walk (k : kernel.t) (dst : list byte) (len : nat) :
  len ≠ 0%nat →
  snapshot_cgroup k dst len
  = match leaf_node k ≫= resolved_name with
    | Some s => (true, copied dst len s)
    | None => (false, memset0 dst len)
    end
  ∧ (∀ s, length dst = len →
          copied dst len s
          = take (len - 1) (cstr s)
            ++ replicate (len - length (take (len - 1) (cstr s))) NUL)
  ∧ ((∀ node s, leaf_node k = Some node → resolved_name node = Some s →
                cstr s ≠ []) →
     snapshot_cgroup k dst len = resolve_spec k dst len).
Proof.
  intros Hlen.
  assert (snapshot_cgroup k dst len
          = match leaf_node k ≫= resolved_name with
            | Some s => (true, copied dst len s)
            | None => (false, memset0 dst len)
            end) as Heq.
  { destruct (leaf_node k) as [node|] eqn:Hleaf.
    - by rewrite (snapshot_cgroup_at_leaf k dst len node).
    - by rewrite snapshot_cgroup_no_leaf. }
  split; [exact Heq|]. split; [intros s Hdst; by apply copied_exact|].
  intros Hnames. rewrite Heq. unfold resolve_spec.
  destruct (leaf_node k) as [node|] eqn:Hleaf; [|done]. cbn.
  specialize (Hnames node). unfold resolved_name in *.
  destruct (readable (kernfs_node.name node)) as [s|] eqn:Hl.
  - rewrite (nonempty_name_readable _ s) by eauto. done.
  - rewrite nonempty_name_unreadable by done.
    destruct (kernfs_node.parent node) as [p|]; [|done]. cbn in *.
    destruct (readable (kernfs_node.name p)) as [s|] eqn:Hp.
    + rewrite (nonempty_name_readable _ s) by eauto. done.
    + by rewrite nonempty_name_unreadable.
Qed.

Lemma C4_witness :
  let k := kernel.mk 0 0%nat
             (Some (sample_task 1 (Some (kstr_at (list_byte_of_string "user.slice"))))) in
  snapshot_cgroup k (zeroed 8) 8
  = (true, list_byte_of_string "user.sl" ++ [NUL])
  ∧ snapshot_cgroup k (zeroed 8) 8 = resolve_spec k (zeroed 8) 8.
Proof.
  intros k.
  destruct (C4_resolver_walk k (zeroed 8) 8) as (Heq & Hcut & Hspec); [done|].
  split.
  - rewrite Heq. vm_compute. reflexivity.
  - apply Hspec. intros node s Hleaf Hname.
    vm_compute in Hleaf. injection Hleaf as <-.
    vm_compute in Hname. injection Hname as <-. vm_compute. discriminate.
Defined.

(** The claim as the specification words it fails where the leaf's name is
    the empty string: the code reports success with an all-NUL buffer, the
    specification's resolver goes on to the parent. *)
Lemma C4_counterexample :
  let k := kernel.mk 0 0%nat (Some (sample_task 1 (Some (kstr_at [])))) in
  (leaf_node k ≫= λ node, readable (kernfs_node.name node)) = Some []
  ∧ snapshot_cgroup k (zeroed 64) 64 = (true, zeroed 64)
  ∧ resolve_spec k (zeroed 64) 64
    = (true, list_byte_of_string "system.slice" ++ zeroed 52)
  ∧ snapshot_cgroup k (zeroed 64) 64 ≠ resolve_spec k (zeroed 64) 64.
Proof.
  intros k. repeat split; try (vm_compute; reflexivity).
  vm_compute. discriminate.
Qed.

(** ** An empty leaf name *)

Lemma snapshot_cgroup_empty_leaf k node s dst len :
  leaf_node k = Some node → kernfs_node.name node = Some (kstr_at s) →
  cstr s = [] → len ≠ 0%nat →
  snapshot_cgroup k dst len = (true, memset0 dst len).
Proof.
  intros Hleaf Hname Hs Hlen.
  rewrite (snapshot_cgroup_at_leaf k dst len node) by done.
  unfold resolved_name. rewrite Hname. cbn [readable].
  by rewrite copied_empty.
Qed.

(** C10. When the kernfs node is reached and its name is the empty string,
    [snapshot_cgroup] returns success and leaves the buffer all NUL, whatever
    the parent node is.  A record created by such an event therefore has an
    empty [cgroup] field, and the next event for the same key runs the
    resolution again: the field becomes what that event's resolution (or the
    placeholder) gives.  Both for [page_faults] and for [pid_stats]. *)
Theorem C10_empty_leaf_succeeds (k : kernel.t) (node : kernfs_node.t) (s : list byte) :
  leaf_node k = Some node → kernfs_node.name node = Some (kstr_at s) →
  cstr s = [] →
  (∀ dst len, len ≠ 0%nat → snapshot_cgroup k dst len = (true, memset0 dst len))
  ∧ cgroup_or_placeholder k (zeroed 64) 64 = zeroed 64
  ∧ (∀ (m : gmap Z fault_stat.t) (k' : kernel.t),
       fault_pid k ≠ 0 → fault_pid k' = fault_pid k →
       m !! fault_pid k = None →
       Z.of_nat (size m) < memory_faults.page_faults_max_entries →
       let m1 := (memory_faults.record_fault k m).2 in
       let m2 := (memory_faults.record_fault k' m1).2 in
       m1 !! fault_pid k = Some (fault_stat.mk 1 (zeroed 64))
       ∧ m2 !! fault_pid k
         = Some (fault_stat.mk 2 (cgroup_or_placeholder k' (zeroed 64) 64)))
  ∧ (∀ (m : cpu_hotspot.maps) ctx (k' : kernel.t) ctx',
       let pid := cpu_state.pid (cpu_hotspot.cpu_state m (kernel.cpu k)) in
       let m1 := (cpu_hotspot.handle_sched_switch k ctx m).2 in
       let m2 := (cpu_hotspot.handle_sched_switch k' ctx' m1).2 in
       pid ≠ 0 → kernel.cpu k' = kernel.cpu k →
       to_u32 (trace_event_raw_sched_switch.next_pid ctx) = pid →
       cpu_hotspot.pid_stats m !! pid = None →
       Z.of_nat (size (cpu_hotspot.pid_stats m)) < cpu_hotspot.pid_stats_max_entries →
       ∃ ps1 ps2,
         cpu_hotspot.pid_stats m1 !! pid = Some ps1
         ∧ pid_stat.cgroup ps1 = zeroed 64
         ∧ cpu_hotspot.pid_stats m2 !! pid = Some ps2
         ∧ pid_stat.cgroup ps2 = cgroup_or_placeholder k' (zeroed 64) 64).
Proof.
  intros Hleaf Hname Hs.
  assert (∀ dst len, len ≠ 0%nat →
            snapshot_cgroup k dst len = (true, memset0 dst len)) as Hsnap.
  { intros dst len Hlen. by apply (snapshot_cgroup_empty_leaf k node s). }
  assert (cgroup_or_placeholder k (zeroed 64) 64 = zeroed 64) as Hcg.
  { unfold cgroup_or_placeholder. by rewrite Hsnap. }
  split; [exact Hsnap|]. split; [exact Hcg|]. split.
  - intros m k' Hpid Hsame Hnone Hroom m1 m2.
    assert (m1 = <[fault_pid k := fault_stat.mk 1 (zeroed 64)]> m) as E1.
    { subst m1. rewrite record_fault_absent by done.
      rewrite update_elem_room by done. unfold first_fault. fold (zeroed 64). by rewrite Hcg. }
    split; [rewrite E1; by rewrite lookup_insert_eq|].
    subst m2. rewrite (record_fault_present _ _ (fault_stat.mk 1 (zeroed 64)))
      by (rewrite Hsame, ?E1, ?lookup_insert_eq; done).
    rewrite Hsame, lookup_insert_eq. done.
  - intros m ctx k' ctx' pid m1 m2 Hpid Hcpu Hnext Hnone Hroom.
    assert (cpu_hotspot.pid_stats m1
            = <[pid := first_seen k (to_u64 (bpf_ktime_get_ns k
                 - cpu_state.ts (cpu_hotspot.cpu_state m (kernel.cpu k))))]>
                (cpu_hotspot.pid_stats m)) as E1.
    { subst m1. rewrite handle_sched_switch_unfold. cbn [snd cpu_hotspot.pid_stats].
      rewrite account_absent by done. by rewrite update_elem_room by done. }
    assert (cpu_state.pid (cpu_hotspot.cpu_state m1 (kernel.cpu k')) = pid) as E2.
    { subst m1. rewrite handle_sched_switch_unfold. cbn [snd cpu_hotspot.cpu_state].
      rewrite Hcpu, fn_lookup_insert. done. }
    eexists _, _. split; [rewrite E1; by rewrite lookup_insert_eq|].
    split; [exact Hcg|]. split.
    + subst m2. rewrite handle_sched_switch_unfold. cbn [snd cpu_hotspot.pid_stats].
      erewrite account_present; [| by rewrite E2 | rewrite E2, E1; by rewrite lookup_insert_eq].
      rewrite E2. by rewrite lookup_insert_eq.
    + unfold accounted, first_seen. cbn [pid_stat.cgroup]. fold (zeroed 64).
      by rewrite Hcg.
Qed.

Lemma C10_witness :
  let k := kernel.mk 10 0%nat (Some (sample_task 9 (Some (kstr_at [])))) in
  let k' := kernel.mk 20 0%nat
              (Some (sample_task 9 (Some (kstr_at (list_byte_of_string "user.slice"))))) in
  snapshot_cgroup k (zeroed 64) 64 = (true, zeroed 64)
  ∧ (memory_faults.record_fault k ∅).2 !! 9 = Some (fault_stat.mk 1 (zeroed 64))
  ∧ (memory_faults.record_fault k' (memory_faults.record_fault k ∅).2).2 !! 9
    = Some (fault_stat.mk 2 (list_byte_of_string "user.slice" ++ zeroed 54)).
Proof.
  intros k k'.
  destruct (C10_empty_leaf_succeeds k
              (kernfs_node.mk (Some (kstr_at []))
                 (Some (kernfs_node.mk
                          (Some (kstr_at (list_byte_of_string "system.slice"))) None)))
              []) as (Hsnap & _ & Hpf & _); [reflexivity..|].
  split; [by apply Hsnap|].
  destruct (Hpf ∅ k') as [H1 H2]; [by vm_compute..|].
  split; [exact H1|]. etrans; [exact H2|]. by vm_compute.
Defined.

(** ** CPU time *)

Lemma to_u64_idemp z : to_u64 (to_u64 z) = to_u64 z.
Proof. unfold to_u64. apply Z.mod_mod. lia. Qed.

Lemma to_u64_add_r a d : to_u64 (a + to_u64 d) = to_u64 (a + d).
Proof. unfold to_u64. apply Zplus_mod_idemp_r. Qed.

Lemma to_u64_add_l a d : to_u64 (to_u64 a + d) = to_u64 (a + d).
Proof. unfold to_u64. apply Zplus_mod_idemp_l. Qed.

Lemma step_slot u k ctx s :
  kernel.cpu k = u →
  cpu_hotspot.cpu_state (hotspot (step s (sched_switch k ctx))) u
  = cpu_state.mk (next_of (sched_switch k ctx)) (ts_of (sched_switch k ctx)).
Proof.
  intros <-. cbn [step hotspot]. rewrite handle_sched_switch_unfold.
  cbn [snd cpu_hotspot.cpu_state]. by rewrite fn_lookup_insert.
Qed.

Lemma step_cpu_time k ctx s x :
  x ≠ 0 → saturated s (sched_switch k ctx) = false →
  let st := cpu_hotspot.cpu_state (hotspot s) (kernel.cpu k) in
  cpu_time_of (step s (sched_switch k ctx)) x
  = if decide (cpu_state.pid st = x)
    then to_u64 (cpu_time_of s x + (bpf_ktime_get_ns k - cpu_state.ts st))
    else cpu_time_of s x.
Proof.
  intros Hx Hsat st. unfold cpu_time_of. cbn [step hotspot].
  rewrite handle_sched_switch_unfold. cbn [snd cpu_hotspot.pid_stats]. fold st.
  case_decide as Hp.
  - subst x.
    destruct (cpu_hotspot.pid_stats (hotspot s) !! cpu_state.pid st) as [ps|] eqn:Hk.
    + rewrite (account_present _ _ _ _ ps) by done.
      rewrite lookup_insert_eq. cbn. apply to_u64_add_r.
    + rewrite account_absent by done.
      unfold saturated in Hsat. fold st in Hsat.
      rewrite Hk in Hsat.
      rewrite (bool_decide_eq_true_2 (cpu_state.pid st ≠ 0)) in Hsat by done.
      rewrite (bool_decide_eq_true_2 (None = None)) in Hsat by done.
      cbn [andb] in Hsat. apply bool_decide_eq_false in Hsat.
      rewrite update_elem_room by (done || lia).
      cbn [snd]. rewrite lookup_insert_eq.
      cbn [fmap option_fmap option_map default first_seen pid_stat.cpu_time_ns].
      by rewrite Z.add_0_l.
  - by rewrite account_other by done.
Qed.

Lemma step_cpu_time_range s e x :
  0 ≤ cpu_time_of s x < 2 ^ 64 → 0 ≤ cpu_time_of (step s e) x < 2 ^ 64.
Proof.
  intros Hr. destruct e as [k ctx|k]; [|done].
  unfold cpu_time_of in *. cbn [step hotspot].
  rewrite handle_sched_switch_unfold. cbn [snd cpu_hotspot.pid_stats].
  set (st := cpu_hotspot.cpu_state (hotspot s) (kernel.cpu k)).
  destruct (decide (x = cpu_state.pid st)) as [->|Hne];
    [|by rewrite account_other by done].
  destruct (decide (cpu_state.pid st = 0)) as [H0|H0];
    [by rewrite account_idle by done|].
  destruct (cpu_hotspot.pid_stats (hotspot s) !! cpu_state.pid st) as [ps|] eqn:Hk.
  - rewrite (account_present _ _ _ _ ps) by done. rewrite lookup_insert_eq.
    cbn. apply to_u64_range.
  - rewrite account_absent by done. rewrite update_elem_lookup, Hk.
    case_decide; cbn; [apply to_u64_range | lia].
Qed.

Lemma run_cpu_time_range evs : ∀ s x,
  0 ≤ cpu_time_of s x < 2 ^ 64 → 0 ≤ cpu_time_of (run s evs) x < 2 ^ 64.
Proof.
  induction evs as [|e evs IH]; intros s x Hr; [done|].
  rewrite run_cons. apply IH. by apply step_cpu_time_range.
Qed.

(** The accumulation from any state of the maps. *)
Lemma run_cpu_time u x evs : ∀ s,
  x ≠ 0 → Forall (switch_on u) evs → never_saturates s evs →
  let st := cpu_hotspot.cpu_state (hotspot s) u in
  to_u64 (cpu_time_of (run s evs) x)
  = to_u64 (cpu_time_of s x
            + outgoing_time_from x (cpu_state.pid st) (cpu_state.ts st) evs).
Proof.
  induction evs as [|e evs IH]; intros s Hx Hon Hsat st.
  { cbn. by rewrite Z.add_0_r. }
  inversion_clear Hon as [|? ? He Hon']. destruct Hsat as [Hs Hsat].
  destruct e as [k ctx|k]; [|done]. cbn in He.
  rewrite run_cons. rewrite IH by done. cbn zeta.
  rewrite (step_slot u) by done. cbn [cpu_state.pid cpu_state.ts].
  rewrite step_cpu_time by done. cbn zeta. rewrite He. fold st.
  cbn [outgoing_time_from ts_of].
  case_decide as Hp.
  - rewrite to_u64_add_l. f_equal. lia.
  - f_equal.
Qed.

Lemma outgoing_time_from_cons x e evs :
  outgoing_time x (e :: evs) = outgoing_time_from x (next_of e) (ts_of e) evs.
Proof.
  revert e. induction evs as [|e' evs IH]; intros e; [done|].
  cbn [outgoing_time outgoing_time_from]. by rewrite <- IH.
Qed.

Lemma outgoing_time_from_boot x evs :
  x ≠ 0 → outgoing_time_from x 0 0 evs = outgoing_time x evs.
Proof.
  intros Hx. destruct evs as [|e evs]; [done|].
  rewrite outgoing_time_from_cons. cbn [outgoing_time_from].
  by rewrite decide_False by congruence.
Qed.

Lemma ts_of_range e : 0 ≤ ts_of e < 2 ^ 64.
Proof. destruct e; apply to_u64_range. Qed.

(** With a clock that never goes back the sum is at most the time elapsed,
    so it fits 64 bits. *)
Lemma outgoing_time_from_bound x evs : ∀ p e,
  monotone_ts (e :: evs) →
  0 ≤ outgoing_time_from x p (ts_of e) evs ≤ 2 ^ 64 - 1 - ts_of e.
Proof.
  induction evs as [|e' evs IH]; intros p e Hmono.
  { pose proof (ts_of_range e). cbn. lia. }
  destruct Hmono as [Hle Hmono]. cbn [outgoing_time_from].
  specialize (IH (next_of e') e' Hmono).
  case_decide; lia.
Qed.

Lemma outgoing_time_bound x evs :
  monotone_ts evs → 0 ≤ outgoing_time x evs < 2 ^ 64.
Proof.
  intros Hmono. destruct evs as [|e evs]; [done|].
  rewrite outgoing_time_from_cons.
  pose proof (outgoing_time_from_bound x evs (next_of e) e Hmono).
  pose proof (ts_of_range e). lia.
Qed.

(** C1. For a sequence of context switches delivered on one CPU to freshly
    created maps, during which no insert into [pid_stats] is refused for lack
    of room, and for every non-zero id [x]: the accumulated
    [pid_stats[x].cpu_time_ns] (0 while [x] has no record) is the sum of
    [ts_{i+1} - ts_i] over exactly the intervals at whose start [x] was
    stored in the slot, taken in [u64]; with a clock that never goes back,
    as the kernel's is, it is that sum itself. *)
Theorem C1_cpu_time_is_outgoing_time (u : nat) (evs : list event) (x : Z) :
  x ≠ 0 → Forall (switch_on u) evs → never_saturates boot evs →
  cpu_time_of (run boot evs) x = to_u64 (outgoing_time x evs)
  ∧ (monotone_ts evs → cpu_time_of (run boot evs) x = outgoing_time x evs).
Proof.
  intros Hx Hon Hsat.
  assert (cpu_time_of (run boot evs) x = to_u64 (outgoing_time x evs)) as Heq.
  { pose proof (run_cpu_time u x evs boot Hx Hon Hsat) as H. cbn zeta in H.
    change (cpu_hotspot.cpu_state (hotspot boot) u) with (cpu_state.mk 0 0) in H.
    cbn [cpu_state.pid cpu_state.ts] in H.
    rewrite outgoing_time_from_boot in H by done.
    change (cpu_time_of boot x) with 0 in H. rewrite Z.add_0_l in H.
    rewrite <- H. symmetry. apply to_u64_small.
    apply run_cpu_time_range. done. }
  split; [exact Heq|]. intros Hmono. rewrite Heq.
  apply to_u64_small. by apply outgoing_time_bound.
Qed.

Lemma C1_witness :
  let evs := [sample_switch 100 3 0; sample_switch 150 0 42; sample_switch 400 42 7;
              sample_switch 450 7 42; sample_switch 700 42 7] in
  cpu_time_of (run boot evs) 42 = (400 - 150) + (700 - 450)
  ∧ cpu_time_of (run boot evs) 7 = 450 - 400.
Proof.
  intros evs.
  assert (Forall (switch_on 0) evs) as Hon by (repeat constructor).
  assert (never_saturates boot evs) as Hsat by (vm_compute; tauto).
  assert (monotone_ts evs) as Hmono by (vm_compute; intuition discriminate).
  split.
  - destruct (C1_cpu_time_is_outgoing_time 0 evs 42) as [_ H]; [done..|].
    rewrite H by done. vm_compute. reflexivity.
  - destruct (C1_cpu_time_is_outgoing_time 0 evs 7) as [_ H]; [done..|].
    rewrite H by done. vm_compute. reflexivity.
Defined.

(** ** Two CPUs in [record_fault] at once *)

(** *** The stores are the sequential functions *)

Lemma apply_stores_app sts sts' buf :
  apply_stores (sts ++ sts') buf = apply_stores sts' (apply_stores sts buf).
Proof. apply foldl_app. Qed.

Lemma apply_stores_from l : ∀ i buf,
  (i + length l ≤ length buf)%nat →
  apply_stores (stores_from i l) buf = take i buf ++ l ++ drop (i + length l) buf.
Proof.
  induction l as [|b l IH]; intros i buf Hlen; cbn [stores_from length] in *.
  - cbn. rewrite Nat.add_0_r. by rewrite take_drop.
  - unfold apply_stores in *. cbn [foldl]. unfold apply_store at 2. cbn [fst snd].
    rewrite IH by (rewrite length_insert; lia).
    rewrite take_insert_lt by lia.
    rewrite drop_insert_lt by lia.
    rewrite (take_S_r buf i (default NUL (buf !! i))).
    2:{ destruct (lookup_lt_is_Some_2 buf i) as [x Hx]; [lia|]. by rewrite Hx. }
    rewrite insert_app_r_alt by (rewrite length_take; lia).
    rewrite length_take, Nat.min_l, Nat.sub_diag by lia. cbn [app].
    rewrite <- app_assoc. cbn [app].
    by replace (S i + length l)%nat with (i + S (length l))%nat by lia.
Qed.

Lemma apply_stores_from_0 l buf :
  (length l ≤ length buf)%nat →
  apply_stores (stores_from 0 l) buf = l ++ drop (length l) buf.
Proof. intros Hlen. by rewrite apply_stores_from by (cbn; lia). Qed.

Lemma memset_stores_spec dst len :
  (len ≤ length dst)%nat → apply_stores (memset_stores len) dst = memset0 dst len.
Proof.
  intros Hlen. unfold memset_stores, memset0.
  rewrite apply_stores_from_0 by (by rewrite length_replicate).
  by rewrite length_replicate.
Qed.

Lemma bpf_core_read_str_stores_spec dst len src :
  length dst = len →
  bpf_core_read_str dst len src
  = ((bpf_core_read_str_stores len src).1,
     apply_stores (bpf_core_read_str_stores len src).2 dst).
Proof.
  intros Hlen. unfold bpf_core_read_str, bpf_core_read_str_stores.
  destruct len as [|n]; [done|]. destruct src as [|s]; cbn [fst snd].
  - by rewrite memset_stores_spec by lia.
  - pose proof (length_take_le (cstr s) n) as Hle.
    assert (length (take n (cstr s)) ≤ n)%nat as Hb by (rewrite length_take; lia).
    rewrite apply_stores_from_0 by (rewrite length_app; cbn; lia).
    rewrite length_app. cbn [length]. rewrite Nat.add_1_r.
    by rewrite <- app_assoc.
Qed.

Lemma write_placeholder_stores_spec dst len :
  length dst = len →
  apply_stores (write_placeholder_stores len) dst = write_placeholder dst len.
Proof.
  intros Hlen. unfold write_placeholder_stores, write_placeholder.
  case_decide; [done|].
  rewrite !apply_stores_app, memset_stores_spec by lia.
  by repeat case_decide.
Qed.

Lemma snapshot_cgroup_stores_spec k dst len :
  length dst = len →
  snapshot_cgroup k dst len
  = ((snapshot_cgroup_stores k len).1,
     apply_stores (snapshot_cgroup_stores k len).2 dst).
Proof.
  intros Hlen. unfold snapshot_cgroup, snapshot_cgroup_stores.
  case_decide; [done|].
  pose proof (memset_stores_spec dst len) as Hz.
  pose proof (memset0_length dst len Hlen) as Hzl.
  destruct (bpf_get_current_task_btf k) as [task|]; cbn [fst snd]; [|by rewrite Hz by lia].
  destruct (task_struct.cgroups task) as [cset|]; cbn [fst snd]; [|by rewrite Hz by lia].
  destruct (css_set.dfl_cgrp cset) as [cgrp|]; cbn [fst snd]; [|by rewrite Hz by lia].
  destruct (cgroup.kn cgrp) as [kn|]; cbn [fst snd]; [|by rewrite Hz by lia].
  destruct (kernfs_node.name kn) as [leaf|].
  - rewrite (bpf_core_read_str_stores_spec (memset0 dst len) len leaf) by done.
    cbn [fst snd].
    destruct (bool_decide (0 < (bpf_core_read_str_stores len leaf).1)).
    + cbn [fst snd]. by rewrite apply_stores_app, Hz by lia.
    + set (dst' := apply_stores (bpf_core_read_str_stores len leaf).2 (memset0 dst len)).
      assert (length dst' = len) as Hl'.
      { pose proof (bpf_core_read_str_length (memset0 dst len) len leaf Hzl) as Hl.
        by rewrite (bpf_core_read_str_stores_spec _ _ _ Hzl) in Hl. }
      destruct (kernfs_node.parent kn) as [parent_kn|]; cbn [fst snd];
        [|by rewrite app_nil_r, !apply_stores_app, Hz by lia].
      destruct (kernfs_node.name parent_kn) as [parent|]; cbn [fst snd];
        [|by rewrite app_nil_r, !apply_stores_app, Hz by lia].
      rewrite (bpf_core_read_str_stores_spec dst' len parent) by done.
      cbn [fst snd]. by rewrite !apply_stores_app, Hz by lia.
  - destruct (kernfs_node.parent kn) as [parent_kn|]; cbn [fst snd];
      [|by rewrite app_nil_r, Hz by lia].
    destruct (kernfs_node.name parent_kn) as [parent|]; cbn [fst snd];
      [|by rewrite app_nil_r, Hz by lia].
    rewrite (bpf_core_read_str_stores_spec (memset0 dst len) len parent) by done.
    cbn [fst snd]. by rewrite !apply_stores_app, Hz by lia.
Qed.

Lemma cgroup_or_placeholder_stores_spec k dst len :
  length dst = len →
  apply_stores (cgroup_or_placeholder_stores k len) dst = cgroup_or_placeholder k dst len.
Proof.
  intros Hlen. unfold cgroup_or_placeholder_stores, cgroup_or_placeholder.
  rewrite (snapshot_cgroup_stores_spec k dst len Hlen). cbn [fst snd].
  destruct (snapshot_cgroup_stores k len).1 eqn:Hok; [done|].
  rewrite apply_stores_app. apply write_placeholder_stores_spec.
  pose proof (snapshot_cgroup_length k dst len Hlen) as Hl.
  by rewrite (snapshot_cgroup_stores_spec k dst len Hlen) in Hl.
Qed.

Lemma cgroup_or_placeholder_length k dst :
  length dst = 64%nat → length (cgroup_or_placeholder k dst 64) = 64%nat.
Proof.
  intros Hlen. unfold cgroup_or_placeholder.
  pose proof (snapshot_cgroup_length k dst 64 Hlen) as Hl.
  destruct (snapshot_cgroup k dst 64).1; [done|].
  by rewrite write_placeholder_64.
Qed.

(** *** One CPU alone is [record_fault] *)

Lemma alter_is_insert {V : Type} (f : V → V) (m : gmap Z V) key v :
  m !! key = Some v → alter f key m = <[key := f v]> m.
Proof.
  intros Hk. apply map_eq. intros j. destruct (decide (j = key)) as [->|Hne].
  - by rewrite lookup_alter_eq, lookup_insert_eq, Hk.
  - by rewrite lookup_alter_ne, lookup_insert_ne.
Qed.

Lemma record_fault_steps_finished n k m :
  record_fault_steps n k finished m = (finished, m).
Proof. induction n as [|n IH]; [done|]. cbn. apply IH. Qed.

Lemma record_fault_steps_add a b k p m :
  record_fault_steps (a + b) k p m
  = record_fault_steps b k (record_fault_steps a k p m).1 (record_fault_steps a k p m).2.
Proof.
  revert p m. induction a as [|a IH]; intros p m; [done|].
  cbn [Nat.add record_fault_steps]. apply IH.
Qed.

Lemma record_fault_steps_more n n' k p m m' :
  record_fault_steps n k p m = (finished, m') → (n ≤ n')%nat →
  record_fault_steps n' k p m = (finished, m').
Proof.
  intros Hn Hle. replace n' with (n + (n' - n))%nat by lia.
  rewrite record_fault_steps_add, Hn. apply record_fault_steps_finished.
Qed.

(** The stores into [entry->cgroup], one access each. *)
Lemma record_fault_steps_cgroup k todo : ∀ m entry,
  m !! fault_pid k = Some entry →
  record_fault_steps (length todo) k (after_stores todo) m
  = (finished,
     <[fault_pid k := fault_stat.mk (fault_stat.faults entry)
                        (apply_stores todo (fault_stat.cgroup entry))]> m).
Proof.
  induction todo as [|st todo IH]; intros m entry Hk.
  - cbn. f_equal. symmetry. apply insert_id. by destruct entry.
  - cbn [length after_stores record_fault_steps record_fault_step fst snd].
    rewrite (IH _ (store_cgroup st entry)) by (by rewrite lookup_alter_eq, Hk).
    by rewrite insert_alter_eq.
Qed.

Lemma record_fault_alone k m n :
  cgroup_arrays m → (record_fault_accesses k ≤ n)%nat →
  record_fault_steps n k at_lookup m = (finished, (memory_faults.record_fault k m).2).
Proof.
  intros Hwf Hn. destruct (decide (fault_pid k = 0)) as [Hp|Hp].
  { rewrite record_fault_idle by done.
    apply (record_fault_steps_more 1); [|unfold record_fault_accesses in Hn; lia].
    cbn [record_fault_steps record_fault_step fst snd].
    by rewrite bool_decide_eq_true_2. }
  assert (bool_decide (fault_pid k = 0) = false) as Hp' by (by apply bool_decide_eq_false_2).
  destruct (m !! fault_pid k) as [entry|] eqn:Hk.
  - rewrite (record_fault_present k m entry) by done.
    set (v := to_u64 (fault_stat.faults entry + 1)).
    assert (record_fault_steps 3 k at_lookup m
            = (at_test, <[fault_pid k := store_faults v entry]> m)) as H3.
    { assert (bpf_map_lookup_elem m (fault_pid k) = Some entry) as Hk' by done.
      do 3 (cbn [record_fault_steps record_fault_step fst snd]; rewrite ?Hp', ?Hk', ?Hk).
      cbn [record_fault_steps fst snd].
      by rewrite (alter_is_insert _ _ _ entry). }
    unfold faulted. fold v.
    destruct (first_is_nul (fault_stat.cgroup entry)) eqn:Hnul.
    + apply (record_fault_steps_more
               (3 + (1 + length (cgroup_or_placeholder_stores k 64)))); [|done].
      rewrite record_fault_steps_add, H3. cbn [fst snd].
      rewrite record_fault_steps_add.
      cbn [record_fault_steps record_fault_step fst snd].
      rewrite lookup_insert_eq. cbn [store_faults fault_stat.cgroup]. rewrite Hnul.
      cbn [fst snd].
      rewrite (record_fault_steps_cgroup _ _ _ (store_faults v entry))
        by (by rewrite lookup_insert_eq).
      rewrite insert_insert_eq. cbn [store_faults fault_stat.faults fault_stat.cgroup].
      by rewrite cgroup_or_placeholder_stores_spec by (by apply (Hwf (fault_pid k))).
    + apply (record_fault_steps_more 4); [|unfold record_fault_accesses in Hn; lia].
      change 4%nat with (3 + 1)%nat. rewrite record_fault_steps_add, H3.
      cbn [record_fault_steps record_fault_step fst snd].
      rewrite lookup_insert_eq. cbn [store_faults fault_stat.cgroup]. by rewrite Hnul.
  - rewrite record_fault_absent by done.
    apply (record_fault_steps_more 2); [|unfold record_fault_accesses in Hn; lia].
    assert (bpf_map_lookup_elem m (fault_pid k) = None) as Hk' by done.
    cbn [record_fault_steps record_fault_step fst snd]. by rewrite Hp', Hk'.
Qed.

Lemma record_fault_cgroup_arrays k m :
  cgroup_arrays m → cgroup_arrays (memory_faults.record_fault k m).2.
Proof.
  intros Hwf pid entry. destruct (decide (pid = fault_pid k)) as [->|Hne].
  2:{ rewrite record_fault_other by done. apply Hwf. }
  destruct (decide (fault_pid k = 0)) as [H0|H0].
  { rewrite record_fault_idle by done. apply Hwf. }
  destruct (m !! fault_pid k) as [old|] eqn:Hk.
  - rewrite (record_fault_present k m old), lookup_insert_eq by done.
    intros [= <-]. unfold faulted. cbn [fault_stat.cgroup].
    pose proof (Hwf _ _ Hk) as Hl.
    destruct (first_is_nul _); [by apply cgroup_or_placeholder_length|done].
  - rewrite record_fault_absent, update_elem_lookup by done.
    case_decide; [|done]. intros [= <-]. unfold first_fault. cbn [fault_stat.cgroup].
    apply cgroup_or_placeholder_length, length_replicate.
Qed.

(** *** Two CPUs *)

Lemma record_fault_step_keeps_key k p m key :
  is_Some (m !! key) → is_Some ((record_fault_step k p m).2 !! key).
Proof.
  intros Hk. destruct p as [| |v| |[|st todo]| |]; cbn [record_fault_step].
  - case_bool_decide; [done|]. by destruct (bpf_map_lookup_elem _ _).
  - by destruct (m !! fault_pid k).
  - cbn [snd]. by apply lookup_alter_is_Some.
  - destruct (m !! fault_pid k) as [entry|]; [|done]. by destruct (first_is_nul _).
  - done.
  - cbn [snd]. by apply lookup_alter_is_Some.
  - cbn [snd]. unfold bpf_map_update_elem.
    destruct (m !! fault_pid k); [|case_decide]; cbn [snd]; try done.
    all: rewrite lookup_insert_is_Some; destruct (decide (fault_pid k = key)); auto.
  - done.
Qed.

Lemma race_step_keeps_key ka kb r who key :
  is_Some (shared r !! key) → is_Some (shared (race_step ka kb r who) !! key).
Proof.
  intros Hk. destruct who; cbn [race_step shared];
    by apply record_fault_step_keeps_key.
Qed.

Lemma race_step_first_only ka kb n : ∀ c,
  foldl (race_step ka kb) c (replicate n true)
  = mk_race (record_fault_steps n ka (unit_a c) (shared c)).1 (unit_b c)
            (record_fault_steps n ka (unit_a c) (shared c)).2.
Proof.
  induction n as [|n IH]; intros c; [by destruct c|].
  cbn [replicate foldl]. rewrite IH. done.
Qed.

Lemma race_step_second_only ka kb n : ∀ c,
  foldl (race_step ka kb) c (replicate n false)
  = mk_race (unit_a c) (record_fault_steps n kb (unit_b c) (shared c)).1
            (record_fault_steps n kb (unit_b c) (shared c)).2.
Proof.
  induction n as [|n IH]; intros c; [by destruct c|].
  cbn [replicate foldl]. rewrite IH. done.
Qed.

(** Without overlap the two CPUs leave what two calls of [record_fault]
    leave. *)
Lemma race_one_after_the_other ka kb m na nb :
  cgroup_arrays m →
  (record_fault_accesses ka ≤ na)%nat → (record_fault_accesses kb ≤ nb)%nat →
  interleave ka kb m (one_after_the_other na nb)
  = mk_race finished finished
      (memory_faults.record_fault kb (memory_faults.record_fault ka m).2).2.
Proof.
  intros Hwf Hna Hnb. unfold interleave, one_after_the_other.
  rewrite foldl_app, race_step_first_only. cbn [unit_a unit_b shared].
  rewrite record_fault_alone by done. cbn [fst snd].
  rewrite race_step_second_only. cbn [unit_a unit_b shared].
  rewrite record_fault_alone by (done || by apply record_fault_cgroup_arrays).
  done.
Qed.

(** *** Whatever the interleaving *)

Lemma after_stores_counted todo : counted (after_stores todo).
Proof. by destruct todo. Qed.

Lemma loading_loading2 c c' p : loading c p → loading2 c c' p.
Proof. destruct p; cbn; auto. Qed.

Ltac race_case :=
  first [ by left
        | by (right; left)
        | by (right; right; left)
        | by (right; right; right; auto)
        | by (right; left; auto)
        | by (right; right; left; auto) ].

Lemma present_inv_step ka kb key c r who :
  key ≠ 0 → fault_pid ka = key → fault_pid kb = key →
  present_inv key c r → present_inv key c (race_step ka kb r who).
Proof.
  intros Hne Ha Hb (entry & Hk & Hcases).
  assert (bool_decide (key = 0) = false) as H0 by (by apply bool_decide_eq_false_2). destruct r as [pa pb m]. cbn [unit_a unit_b shared] in *.
  assert (bpf_map_lookup_elem m key = Some entry) as Hk' by done.
  pose proof after_stores_counted as Hafter.
  unfold present_inv.
  destruct who; cbn [race_step unit_a unit_b shared];
    [destruct pa as [| |v| |[|st todo]| |] | destruct pb as [| |v| |[|st todo]| |]];
    cbn [counted loading loading2] in Hcases;
    destruct Hcases as [(?&?&?)|[(?&?&?)|[(?&?&?)|(?&?&?)]]]; try done;
    cbn [record_fault_step fst snd]; rewrite ?Ha, ?Hb, ?H0, ?Hk', ?Hk; cbn [fst snd];
    try (destruct (first_is_nul _)); cbn [fst snd unit_a unit_b shared];
    rewrite ?lookup_alter_eq, ?Hk; cbn [fmap option_fmap option_map];
    (eexists; split; [reflexivity || eassumption|]);
    cbn [store_faults store_cgroup fault_stat.faults counted loading loading2];
    try race_case.
  all: pose proof (loading_loading2 c (to_u64 (c + 1))) as Hweak.
  all: repeat match goal with H : _ ∨ _ |- _ => destruct H end; subst v.
  all: try (right; left; by auto).
  all: try (right; right; left; by auto).
  all: try (right; right; right; by auto).
  all: match goal with |- ?g => idtac g end.
Qed.

Lemma present_inv_run ka kb key c sched : ∀ r,
  key ≠ 0 → fault_pid ka = key → fault_pid kb = key →
  present_inv key c r → present_inv key c (foldl (race_step ka kb) r sched).
Proof.
  induction sched as [|who sched IH]; intros r H0 Ha Hb Hinv; [done|].
  cbn [foldl]. apply IH; [done..|]. by apply present_inv_step.
Qed.

Lemma missing_overtaken p : missing p → overtaken p.
Proof. destruct p; cbn; tauto. Qed.

Lemma absent_inv_step ka kb key m0 r who :
  key ≠ 0 → fault_pid ka = key → fault_pid kb = key →
  m0 !! key = None →
  Z.of_nat (size m0) < memory_faults.page_faults_max_entries →
  absent_inv key m0 r → absent_inv key m0 (race_step ka kb r who).
Proof.
  intros Hne Ha Hb Hk0 Hroom Hinv. destruct r as [pa pb m].
  assert (bool_decide (key = 0) = false) as H0 by (by apply bool_decide_eq_false_2).
  pose proof after_stores_counted as Hafter.
  pose proof missing_overtaken as Hweak.
  unfold absent_inv in *. cbn [unit_a unit_b shared] in *.
  destruct Hinv as [(-> & Hpa & Hpb)|(entry & Hk & Hcases)].
  - assert (bpf_map_lookup_elem m0 key = None) as Hk0' by done.
    destruct who; cbn [race_step unit_a unit_b shared];
      [destruct pa as [| |v| |[|st todo]| |] | destruct pb as [| |v| |[|st todo]| |]];
      cbn [missing] in Hpa, Hpb; try done;
      cbn [record_fault_step fst snd]; rewrite ?Ha, ?Hb, ?H0, ?Hk0'; cbn [fst snd];
      try (by left).
    all: rewrite update_elem_room by done; cbn [snd]; right.
    all: eexists; split; [apply lookup_insert_eq|]; unfold first_fault;
      cbn [fault_stat.faults].
    + left. auto.
    + right. left. auto.
  - assert (bpf_map_lookup_elem m key = Some entry) as Hk' by done.
    destruct who; cbn [race_step unit_a unit_b shared];
      [destruct pa as [| |v| |[|st todo]| |] | destruct pb as [| |v| |[|st todo]| |]];
      cbn [counted overtaken] in Hcases;
      destruct Hcases as [(?&?&?)|[(?&?&?)|(?&?&?)]]; try done;
      cbn [record_fault_step fst snd]; rewrite ?Ha, ?Hb, ?H0, ?Hk', ?Hk; cbn [fst snd];
      try (destruct (first_is_nul _)); cbn [fst snd unit_a unit_b shared];
      rewrite ?update_elem_present by (by rewrite Hk); cbn [snd];
      rewrite ?lookup_alter_eq, ?lookup_insert_eq, ?Hk; cbn [fmap option_fmap option_map];
      right; (eexists; split; [reflexivity || eassumption|]);
      unfold first_fault;
      cbn [store_faults store_cgroup fault_stat.faults counted overtaken];
      try subst v;
      first [ by left | by (right; left) | by (right; right; auto) | idtac ].
    all: subst; cbn [counted]; right; right; auto.
Qed.

Lemma absent_inv_run ka kb key m0 sched : ∀ r,
  key ≠ 0 → fault_pid ka = key → fault_pid kb = key →
  m0 !! key = None →
  Z.of_nat (size m0) < memory_faults.page_faults_max_entries →
  absent_inv key m0 r → absent_inv key m0 (foldl (race_step ka kb) r sched).
Proof.
  induction sched as [|who sched IH]; intros r H0 Ha Hb Hk0 Hroom Hinv; [done|].
  cbn [foldl]. apply IH; [done..|]. by apply absent_inv_step.
Qed.

(** *** One after the other *)

Lemma count_contention_twice victim aggressor (m : gmap Z Z) :
  victim ≠ 0 → aggressor ≠ 0 →
  is_Some (m !! pair_key victim aggressor)
    ∨ Z.of_nat (size m) < cpu_hotspot.cpu_contention_max_entries →
  cpu_hotspot.count_contention victim aggressor
    (cpu_hotspot.count_contention victim aggressor m) !! pair_key victim aggressor
  = Some (to_u64 (default 0 (m !! pair_key victim aggressor) + 2)).
Proof.
  intros Hv Ha Hok. rewrite !count_contention_at by done.
  destruct (m !! pair_key victim aggressor) as [cnt|] eqn:Hk; cbn [default].
  - rewrite to_u64_add_l. by rewrite <- Z.add_assoc.
  - destruct Hok as [[? [=]]|Hroom]. by rewrite decide_True.
Qed.

Lemma account_twice k1 ts1 st1 k2 ts2 st2 (m : gmap Z pid_stat.t) :
  cpu_state.pid st1 ≠ 0 → cpu_state.pid st2 = cpu_state.pid st1 →
  is_Some (m !! cpu_state.pid st1)
    ∨ Z.of_nat (size m) < cpu_hotspot.pid_stats_max_entries →
  pid_stat.cpu_time_ns <$>
    cpu_hotspot.account k2 ts2 st2 (cpu_hotspot.account k1 ts1 st1 m) !! cpu_state.pid st1
  = Some (to_u64 (default 0 (pid_stat.cpu_time_ns <$> m !! cpu_state.pid st1)
                  + (ts1 - cpu_state.ts st1) + (ts2 - cpu_state.ts st2))).
Proof.
  intros Hp Hsame Hok.
  set (d1 := ts1 - cpu_state.ts st1). set (d2 := ts2 - cpu_state.ts st2).
  assert (∃ ps, cpu_hotspot.account k1 ts1 st1 m !! cpu_state.pid st1 = Some ps
            ∧ pid_stat.cpu_time_ns ps
              = to_u64 (default 0 (pid_stat.cpu_time_ns <$> m !! cpu_state.pid st1) + d1))
    as (ps & Hps & Htime).
  { destruct (m !! cpu_state.pid st1) as [old|] eqn:Hk; cbn [fmap option_fmap option_map default].
    - rewrite (account_present _ _ _ _ old), lookup_insert_eq by done.
      eexists. split; [done|]. cbn [accounted pid_stat.cpu_time_ns].
      by rewrite to_u64_add_r.
    - destruct Hok as [[? [=]]|Hroom].
      rewrite account_absent, update_elem_lookup, decide_True by (done || by right).
      eexists. split; [done|]. done. }
  rewrite <- Hsame in Hps |- *.
  rewrite (account_present _ _ _ _ ps), lookup_insert_eq by (done || congruence).
  cbn [fmap option_fmap option_map accounted pid_stat.cpu_time_ns]. f_equal.
  rewrite Htime, Hsame, to_u64_add_r. fold d2. by rewrite to_u64_add_l.
Qed.

Lemma record_fault_twice ka kb (m : gmap Z fault_stat.t) :
  fault_pid ka ≠ 0 → fault_pid kb = fault_pid ka →
  is_Some (m !! fault_pid ka)
    ∨ Z.of_nat (size m) < memory_faults.page_faults_max_entries →
  fault_stat.faults <$>
    (memory_faults.record_fault kb (memory_faults.record_fault ka m).2).2 !! fault_pid ka
  = Some (to_u64 (faults_at m (fault_pid ka) + 2)).
Proof.
  intros Hp Hsame Hok. unfold faults_at.
  assert (∃ entry, (memory_faults.record_fault ka m).2 !! fault_pid ka = Some entry
            ∧ fault_stat.faults entry
              = to_u64 (default 0 (fault_stat.faults <$> m !! fault_pid ka) + 1))
    as (entry & Hentry & Hcount).
  { destruct (m !! fault_pid ka) as [old|] eqn:Hk; cbn [fmap option_fmap option_map default].
    - rewrite (record_fault_present _ _ old), lookup_insert_eq by done.
      eexists. split; done.
    - destruct Hok as [[? [=]]|Hroom].
      rewrite record_fault_absent, update_elem_lookup, decide_True by (done || by right).
      eexists. split; done. }
  rewrite <- Hsame in Hentry |- *.
  rewrite (record_fault_present _ _ entry), lookup_insert_eq by (done || congruence).
  cbn [fmap option_fmap option_map faulted fault_stat.faults]. f_equal.
  rewrite Hcount, Hsame, to_u64_add_l. by rewrite <- Z.add_assoc.
Qed.

(** C9, amended.  The upserts are not atomic: the lookup, the load and the
    store of the counter through the returned pointer, and
    [bpf_map_update_elem] after a miss, are separate accesses, and another
    CPU may run its own between them.
    - Two upserts at one key that run one after the other lose nothing: the
      contention counter and the fault counter end two above what they
      were, the CPU time ends with both deltas added (all in [u64]; for a
      key that was there, or a map with room for it).
    - [record_fault] on one CPU, access by access, is the function of the
      program; two CPUs that do not overlap leave what two calls leave.
    - Two CPUs that run [record_fault] for one process at once, their
      accesses interleaved in any order, leave its counter one or two above
      what it was: one increment may be lost, never both, and none is
      invented. *)
Theorem C9_upserts_interleave :
  (∀ victim aggressor (m : gmap Z Z),
     victim ≠ 0 → aggressor ≠ 0 →
     is_Some (m !! pair_key victim aggressor)
       ∨ Z.of_nat (size m) < cpu_hotspot.cpu_contention_max_entries →
     cpu_hotspot.count_contention victim aggressor
       (cpu_hotspot.count_contention victim aggressor m) !! pair_key victim aggressor
     = Some (to_u64 (default 0 (m !! pair_key victim aggressor) + 2)))
  ∧ (∀ k1 ts1 st1 k2 ts2 st2 (m : gmap Z pid_stat.t),
       cpu_state.pid st1 ≠ 0 → cpu_state.pid st2 = cpu_state.pid st1 →
       is_Some (m !! cpu_state.pid st1)
         ∨ Z.of_nat (size m) < cpu_hotspot.pid_stats_max_entries →
       pid_stat.cpu_time_ns <$>
         cpu_hotspot.account k2 ts2 st2 (cpu_hotspot.account k1 ts1 st1 m)
           !! cpu_state.pid st1
       = Some (to_u64 (default 0 (pid_stat.cpu_time_ns <$> m !! cpu_state.pid st1)
                       + (ts1 - cpu_state.ts st1) + (ts2 - cpu_state.ts st2))))
  ∧ (∀ ka kb (m : gmap Z fault_stat.t),
       fault_pid ka ≠ 0 → fault_pid kb = fault_pid ka →
       is_Some (m !! fault_pid ka)
         ∨ Z.of_nat (size m) < memory_faults.page_faults_max_entries →
       fault_stat.faults <$>
         (memory_faults.record_fault kb (memory_faults.record_fault ka m).2).2
           !! fault_pid ka
       = Some (to_u64 (faults_at m (fault_pid ka) + 2)))
  ∧ (∀ k (m : gmap Z fault_stat.t) n,
       cgroup_arrays m → (record_fault_accesses k ≤ n)%nat →
       record_fault_steps n k at_lookup m
       = (finished, (memory_faults.record_fault k m).2))
  ∧ (∀ ka kb (m : gmap Z fault_stat.t) na nb,
       cgroup_arrays m →
       (record_fault_accesses ka ≤ na)%nat → (record_fault_accesses kb ≤ nb)%nat →
       interleave ka kb m (one_after_the_other na nb)
       = mk_race finished finished
           (memory_faults.record_fault kb (memory_faults.record_fault ka m).2).2)
  ∧ (∀ ka kb (m : gmap Z fault_stat.t) sched,
       fault_pid ka ≠ 0 → fault_pid kb = fault_pid ka →
       is_Some (m !! fault_pid ka)
         ∨ Z.of_nat (size m) < memory_faults.page_faults_max_entries →
       completed (interleave ka kb m sched) →
       ∃ entry, shared (interleave ka kb m sched) !! fault_pid ka = Some entry
         ∧ (fault_stat.faults entry = to_u64 (faults_at m (fault_pid ka) + 1)
            ∨ fault_stat.faults entry = to_u64 (faults_at m (fault_pid ka) + 2))).
Proof.
  split; [exact count_contention_twice|]. split; [exact account_twice|].
  split; [exact record_fault_twice|]. split; [exact record_fault_alone|].
  split; [exact race_one_after_the_other|].
  intros ka kb m sched.
  intros Hp Hkey Hok [Hda Hdb]. unfold interleave, faults_at in *.
  destruct (m !! fault_pid ka) as [old|] eqn:Hk; cbn [fmap option_fmap option_map default].
  - pose proof (present_inv_run ka kb (fault_pid ka) (fault_stat.faults old) sched
                  (mk_race at_lookup at_lookup m) Hp eq_refl Hkey) as Hinv.
    destruct Hinv as (entry & Hlk & Hcases).
    { exists old. split; [done|]. left. by cbn. }
    exists entry. split; [done|]. rewrite Hda, Hdb in Hcases. cbn in Hcases.
    destruct Hcases as [(?&?&?)|[(?&?&?)|[(?&?&?)|(_&_&[->| ->])]]]; try done.
    + by left.
    + right. rewrite to_u64_add_l. by rewrite <- Z.add_assoc.
  - destruct Hok as [[? [=]]|Hroom].
    pose proof (absent_inv_run ka kb (fault_pid ka) m sched
                  (mk_race at_lookup at_lookup m) Hp eq_refl Hkey Hk Hroom) as Hinv.
    destruct Hinv as [(_ & Hpa & _)|(entry & Hlk & Hcases)].
    { left. by cbn. }
    { by rewrite Hda in Hpa. }
    exists entry. split; [done|]. rewrite Hda, Hdb in Hcases. cbn in Hcases.
    destruct Hcases as [(?&?&?)|[(?&?&?)|(_&_&[->| ->])]]; try done.
    + by left.
    + by right.
Qed.

(** Two threads of process 9 fault on CPUs 0 and 1, the process having 4
    faults on record: access by access in turn, and one after the other. *)
Lemma C9_witness :
  let ka := faulting_thread 0 901 9 None in
  let kb := faulting_thread 1 902 9 None in
  let m : gmap Z fault_stat.t := {[ 9 := fault_stat.mk 4 sentinel64 ]} in
  let in_turn := [true; false; true; false; true; false; true; false] in
  (completed (interleave ka kb m in_turn)
   ∧ ∃ entry, shared (interleave ka kb m in_turn) !! 9 = Some entry
       ∧ (fault_stat.faults entry = 5 ∨ fault_stat.faults entry = 6))
  ∧ fault_stat.faults <$>
      shared (interleave ka kb m (one_after_the_other 135 135)) !! 9 = Some 6.
Proof.
  intros ka kb m in_turn.
  destruct C9_upserts_interleave as (_ & _ & Htwice & _ & Hseq & Hany).
  assert (completed (interleave ka kb m in_turn)) as Hdone
    by (split; vm_compute; reflexivity).
  assert (cgroup_arrays m) as Hwf.
  { intros pid entry [_ <-]%lookup_singleton_Some. reflexivity. }
  split; [split; [exact Hdone|]|].
  - apply (Hany ka kb m in_turn); [vm_compute; discriminate|reflexivity| |exact Hdone].
    left. by eexists.
  - rewrite (Hseq ka kb m 135%nat 135%nat);
      [|exact Hwf|vm_compute; lia|vm_compute; lia].
    cbn [shared]. apply (Htwice ka kb m); [vm_compute; discriminate|reflexivity|].
    left. by eexists.
Defined.

(** The claim as the specification words it fails on the code.  Two threads
    of process 9 take a page fault at the same time, one on CPU 0 and one on
    CPU 1.  When the process has no record yet, both lookups miss and both
    CPUs insert a record with [faults = 1].  When it has one with 4 faults,
    both CPUs load 4 and both store 5.  Two increments were issued each
    time; one after the other they count as two. *)
Lemma C9_counterexample :
  let ka := faulting_thread 0 901 9 None in
  let kb := faulting_thread 1 902 9 None in
  let both_miss := interleave ka kb ∅ [true; false; true; false] in
  let m : gmap Z fault_stat.t := {[ 9 := fault_stat.mk 4 sentinel64 ]} in
  let both_load :=
    interleave ka kb m [true; false; true; false; true; false; true; false] in
  (completed both_miss
   ∧ fault_stat.faults <$> shared both_miss !! 9 = Some 1
   ∧ fault_stat.faults <$>
       (memory_faults.record_fault kb (memory_faults.record_fault ka ∅).2).2 !! 9
     = Some 2)
  ∧ (completed both_load
     ∧ fault_stat.faults <$> shared both_load !! 9 = Some 5
     ∧ fault_stat.faults <$>
         (memory_faults.record_fault kb (memory_faults.record_fault ka m).2).2 !! 9
       = Some 6).
Proof. repeat split; vm_compute; reflexivity. Qed.

(** The [cgroup] field is written byte by byte as well.  Process 9 has a
    record with an empty [cgroup]; on CPU 1 the walk to the cgroup fails, on
    CPU 0 it finds the name [abcdef].  CPU 1 gets as far as the memset of
    [write_placeholder], CPU 0 runs from start to end, CPU 1 stores its
    three bytes: the field reads [n/adef], which no call wrote. *)
Lemma record_fault_torn_cgroup :
  let ka := faulting_thread 0 901 9 (named_cgroup "abcdef") in
  let kb := faulting_thread 1 902 9 None in
  let m : gmap Z fault_stat.t := {[ 9 := fault_stat.mk 1 (zeroed 64) ]} in
  let r :=
    interleave ka kb m
      (replicate 132 false ++ replicate 75 true ++ replicate 3 false) in
  completed r
  ∧ shared r !! 9
    = Some (fault_stat.mk 3 (list_byte_of_string "n/adef" ++ replicate 58 NUL)).
Proof. split; [split|]; vm_compute; reflexivity. Qed.

(** * Further properties of the code *)

(** ** C strings *)

Lemma cstr_no_nul s : NUL ∉ cstr s.
Proof.
  induction s as [|b s IH]; cbn [cstr]; [apply not_elem_of_nil|].
  case_decide; [apply not_elem_of_nil|]. rewrite not_elem_of_cons. done.
Qed.

Lemma cstr_app_nul body rest : NUL ∉ body → cstr (body ++ NUL :: rest) = body.
Proof.
  induction body as [|b body IH]; intros Hno; cbn [cstr app].
  - by rewrite decide_True.
  - apply not_elem_of_cons in Hno as [Hb Hno].
    rewrite decide_False by done. by rewrite IH.
Qed.

Lemma cstr_padded body n : NUL ∉ body → (0 < n)%nat →
  cstr (body ++ replicate n NUL) = body.
Proof.
  intros Hno Hn. destruct n as [|n]; [lia|]. by apply cstr_app_nul.
Qed.

Lemma take_no_nul n s : NUL ∉ s → NUL ∉ take n s.
Proof. intros Hno Hin. apply Hno. by apply (subseteq_take n s). Qed.

Lemma c_string_field_intro n body :
  NUL ∉ body → (length body < n)%nat →
  c_string_field n (body ++ replicate (n - length body) NUL).
Proof.
  intros Hno Hlen. unfold c_string_field.
  rewrite cstr_padded by (done || lia). done.
Qed.

Lemma c_string_field_length n buf : c_string_field n buf → length buf = n.
Proof.
  intros [Hlt Heq]. rewrite Heq, length_app, length_replicate. lia.
Qed.

(** ** [write_placeholder] *)

(** X1. [write_placeholder] overwrites exactly the first [len] bytes of the
    buffer, with ["n/a"] cut to [len] bytes and NUL after it; the bytes from
    [len] on are untouched, nothing changes for [len = 0], and for [len > 0]
    the first byte is not NUL. *)
Theorem X1_write_placeholder_bytes (dst : list byte) (len : nat) :
  (len ≤ length dst)%nat →
  write_placeholder dst len
  = take len (placeholder ++ replicate (len - 3) NUL) ++ drop len dst
  ∧ length (write_placeholder dst len) = length dst
  ∧ (len ≠ 0%nat → first_is_nul (write_placeholder dst len) = false).
Proof.
  intros Hlen.
  assert (write_placeholder dst len
          = take len (placeholder ++ replicate (len - 3) NUL) ++ drop len dst) as Heq.
  { unfold write_placeholder, memset0, placeholder.
    destruct len as [|[|[|n]]]; [done..|].
    rewrite decide_False by done. rewrite !decide_True by lia.
    cbn [replicate app]. cbn [insert list_insert].
    replace (S (S (S n)) - 3)%nat with n by lia.
    cbn [take]. rewrite take_ge by (rewrite length_replicate; lia). done. }
  split; [exact Heq|]. split.
  - rewrite Heq, length_app, length_take, length_drop, length_app, length_replicate.
    unfold placeholder. cbn [length]. lia.
  - intros Hne. rewrite Heq. destruct len; done.
Qed.

Lemma X1_witness :
  write_placeholder (list_byte_of_string "abcdef") 2 = list_byte_of_string "n/cdef"
  ∧ write_placeholder (list_byte_of_string "abcdef") 5
    = list_byte_of_string "n/a" ++ [NUL; NUL; "f"%byte].
Proof.
  split.
  - rewrite (proj1 (X1_write_placeholder_bytes (list_byte_of_string "abcdef") 2
                      ltac:(cbn; lia))).
    reflexivity.
  - rewrite (proj1 (X1_write_placeholder_bytes (list_byte_of_string "abcdef") 5
                      ltac:(cbn; lia))).
    reflexivity.
Defined.

(** ** What [snapshot_cgroup] leaves in the buffer *)

Lemma copied_bytes dst len s :
  len ≠ 0%nat →
  copied dst len s
  = take (len - 1) (cstr s)
    ++ replicate (len - length (take (len - 1) (cstr s))) NUL ++ drop len dst.
Proof.
  intros Hlen. unfold copied, memset0. destruct len as [|n]; [done|].
  cbn [bpf_core_read_str snd]. rewrite Nat.sub_succ, Nat.sub_0_r.
  set (body := take n (cstr s)).
  assert (length body ≤ n)%nat as Hb by (unfold body; rewrite length_take; lia).
  f_equal. rewrite drop_app_le by (rewrite length_replicate; lia).
  rewrite drop_replicate.
  replace (S n - length body)%nat with (S (n - length body)) by lia.
  cbn [replicate app]. repeat f_equal.
Qed.

Lemma resolved_bytes_short k len :
  len ≠ 0%nat →
  (NUL ∉ resolved_bytes k len) ∧ (length (resolved_bytes k len) < len)%nat.
Proof.
  intros Hlen. unfold resolved_bytes.
  destruct (leaf_node k ≫= resolved_name) as [s|].
  - split; [apply take_no_nul, cstr_no_nul|]. rewrite length_take. lia.
  - split; [apply not_elem_of_nil|]. cbn. lia.
Qed.

Lemma snapshot_cgroup_bytes k dst len :
  len ≠ 0%nat →
  snapshot_cgroup k dst len
  = (bool_decide (is_Some (leaf_node k ≫= resolved_name)),
     resolved_bytes k len
     ++ replicate (len - length (resolved_bytes k len)) NUL ++ drop len dst).
Proof.
  intros Hlen. unfold resolved_bytes.
  destruct (leaf_node k) as [node|] eqn:Hleaf; cbn [mbind option_bind].
  - rewrite (snapshot_cgroup_at_leaf k dst len node) by done.
    destruct (resolved_name node) as [s|].
    + rewrite copied_bytes by done. rewrite bool_decide_eq_true_2 by (by eexists). done.
    + rewrite bool_decide_eq_false_2 by (by intros [? [=]]).
      cbn [length app]. by rewrite Nat.sub_0_r.
  - rewrite snapshot_cgroup_no_leaf by done.
    rewrite bool_decide_eq_false_2 by (by intros [? [=]]).
    cbn [length app]. by rewrite Nat.sub_0_r.
Qed.

(** X2. [snapshot_cgroup] never writes past [len]: the bytes of the buffer
    from [len] on are as before, and its length is kept.  With [len = 0] it
    fails and leaves the buffer alone.  Otherwise the first [len] bytes
    become a NUL-terminated, NUL-padded C string that does not depend on what
    the buffer held, and that is empty whenever the call fails. *)
Theorem X2_snapshot_cgroup_in_bounds (k : kernel.t) (dst : list byte) (len : nat) :
  (len ≤ length dst)%nat →
  let r := snapshot_cgroup k dst len in
  length r.2 = length dst
  ∧ drop len r.2 = drop len dst
  ∧ (len = 0%nat → r = (false, dst))
  ∧ (len ≠ 0%nat →
       c_string_field len (take len r.2)
       ∧ (r.1 = false → take len r.2 = replicate len NUL)
       ∧ ∀ dst', (len ≤ length dst')%nat →
           (snapshot_cgroup k dst' len).1 = r.1
           ∧ take len (snapshot_cgroup k dst' len).2 = take len r.2).
Proof.
  intros Hlen r. subst r. destruct (decide (len = 0%nat)) as [->|Hne].
  { unfold snapshot_cgroup. cbn. by rewrite drop_0. }
  destruct (resolved_bytes_short k len Hne) as [Hno Hshort].
  assert (∀ d, (len ≤ length d)%nat →
            take len (snapshot_cgroup k d len).2
            = resolved_bytes k len
              ++ replicate (len - length (resolved_bytes k len)) NUL) as Htake.
  { intros d Hd. rewrite snapshot_cgroup_bytes by done. cbn [snd].
    rewrite app_assoc. rewrite take_app_length'; [done|].
    rewrite length_app, length_replicate. lia. }
  rewrite snapshot_cgroup_bytes by done. cbn [fst snd].
  split; [|split; [|split; [done|]]].
  - rewrite !length_app, length_replicate, length_drop. lia.
  - rewrite app_assoc. rewrite drop_app_length'; [done|].
    rewrite length_app, length_replicate. lia.
  - intros _. pose proof (Htake dst Hlen) as Hd.
    rewrite snapshot_cgroup_bytes in Hd by done. cbn [snd] in Hd. rewrite Hd.
    split; [by apply c_string_field_intro|]. split.
    + intros Hfail. apply bool_decide_eq_false in Hfail.
      unfold resolved_bytes.
      destruct (leaf_node k ≫= resolved_name) as [s|]; [destruct Hfail; by eexists|].
      cbn [length app]. by rewrite Nat.sub_0_r.
    + intros dst' Hlen'. split.
      * by rewrite snapshot_cgroup_bytes by done.
      * by rewrite Htake.
Qed.

Lemma X2_witness :
  let k := kernel.mk 0 0%nat
             (Some (sample_task 1 (Some (kstr_at (list_byte_of_string "user.slice"))))) in
  snapshot_cgroup k (list_byte_of_string "0123456789") 6
  = (true, list_byte_of_string "user." ++ [NUL] ++ list_byte_of_string "6789")
  ∧ drop 6 (snapshot_cgroup k (list_byte_of_string "0123456789") 6).2
    = list_byte_of_string "6789".
Proof.
  intros k. split; [vm_compute; reflexivity|].
  exact (proj1 (proj2 (X2_snapshot_cgroup_in_bounds k
           (list_byte_of_string "0123456789") 6 ltac:(cbn; lia)))).
Defined.

(** ** What a reader of the maps finds in a [cgroup] field *)

Lemma cgroup_or_placeholder_field (k : kernel.t) (dst : list byte) :
  length dst = 64%nat → c_string_field 64 (cgroup_or_placeholder k dst 64).
Proof.
  intros Hlen. unfold cgroup_or_placeholder.
  rewrite snapshot_cgroup_bytes by done. cbn [fst snd].
  rewrite (drop_ge dst 64) by lia. rewrite app_nil_r.
  destruct (resolved_bytes_short k 64 ltac:(done)) as [Hno Hshort].
  unfold resolved_bytes in *.
  destruct (leaf_node k ≫= resolved_name) as [s|].
  - rewrite bool_decide_eq_true_2 by (by eexists). by apply c_string_field_intro.
  - rewrite bool_decide_eq_false_2 by (by intros [? [=]]).
    rewrite write_placeholder_64 by (cbn; lia).
    change sentinel64 with (placeholder ++ replicate (64 - length placeholder) NUL).
    apply c_string_field_intro; [|cbn; lia].
    unfold placeholder. rewrite !not_elem_of_cons.
    repeat split; done || apply not_elem_of_nil.
Qed.

(** X3. The 64-byte field written by a resolution attempt reads back, as a C
    string, as the name the walk ended on cut to 63 bytes, or as ["n/a"]
    when the walk failed; the field is that string and NUL bytes only. *)
Theorem X3_cgroup_field_reads_back (k : kernel.t) (dst : list byte) :
  length dst = 64%nat →
  cstr (cgroup_or_placeholder k dst 64)
  = match leaf_node k ≫= resolved_name with
    | Some s => take 63 (cstr s)
    | None => placeholder
    end
  ∧ c_string_field 64 (cgroup_or_placeholder k dst 64).
Proof.
  intros Hlen. split; [|by apply cgroup_or_placeholder_field].
  unfold cgroup_or_placeholder.
  rewrite snapshot_cgroup_bytes by done. cbn [fst snd].
  rewrite (drop_ge dst 64) by lia. rewrite app_nil_r.
  destruct (resolved_bytes_short k 64 ltac:(done)) as [Hno Hshort].
  unfold resolved_bytes in *.
  destruct (leaf_node k ≫= resolved_name) as [s|].
  - rewrite bool_decide_eq_true_2 by (by eexists).
    by rewrite cstr_padded by (done || lia).
  - rewrite bool_decide_eq_false_2 by (by intros [? [=]]).
    by rewrite write_placeholder_64 by (cbn; lia).
Qed.

Lemma X3_witness :
  let k := kernel.mk 0 0%nat
             (Some (sample_task 1 (Some (kstr_at (list_byte_of_string "user.slice"))))) in
  cstr (cgroup_or_placeholder k (zeroed 64) 64) = list_byte_of_string "user.slice"
  ∧ cstr (cgroup_or_placeholder (kernel.mk 0 0%nat None) (zeroed 64) 64)
    = list_byte_of_string "n/a".
Proof.
  intros k. split.
  - exact (proj1 (X3_cgroup_field_reads_back k (zeroed 64) eq_refl)).
  - exact (proj1 (X3_cgroup_field_reads_back (kernel.mk 0 0%nat None) (zeroed 64) eq_refl)).
Defined.

(** ** The text fields along a run *)

Lemma c_string_field_zeroed n : (0 < n)%nat → c_string_field n (zeroed n).
Proof.
  intros Hn. unfold c_string_field, zeroed.
  assert (cstr (replicate n NUL) = []) as ->.
  { destruct n; [lia|]. cbn [replicate cstr]. by rewrite decide_True. }
  cbn [length app]. by rewrite Nat.sub_0_r.
Qed.

Lemma bpf_get_current_comm_field k buf :
  length buf = 16%nat → c_string_field 16 (bpf_get_current_comm k buf 16).2.
Proof.
  intros Hlen. unfold bpf_get_current_comm.
  destruct (kernel.current k) as [t|]; cbn [snd].
  - unfold strscpy_pad. rewrite (drop_ge buf 16) by lia. rewrite app_nil_r.
    apply c_string_field_intro; [apply take_no_nul, cstr_no_nul|].
    rewrite length_take. lia.
  - rewrite memset0_exact by done. apply c_string_field_zeroed. lia.
Qed.

Lemma first_seen_fields k delta :
  c_string_field 16 (pid_stat.comm (first_seen k delta))
  ∧ c_string_field 64 (pid_stat.cgroup (first_seen k delta)).
Proof.
  unfold first_seen. cbn [pid_stat.comm pid_stat.cgroup]. split.
  - by apply bpf_get_current_comm_field.
  - by apply cgroup_or_placeholder_field.
Qed.

Lemma accounted_fields k delta ps :
  c_string_field 16 (pid_stat.comm ps) ∧ c_string_field 64 (pid_stat.cgroup ps) →
  c_string_field 16 (pid_stat.comm (accounted k delta ps))
  ∧ c_string_field 64 (pid_stat.cgroup (accounted k delta ps)).
Proof.
  intros [Hcomm Hcg]. unfold accounted. cbn [pid_stat.comm pid_stat.cgroup]. split.
  - destruct (first_is_nul _); [|done].
    apply bpf_get_current_comm_field. by apply c_string_field_length.
  - destruct (first_is_nul _); [|done].
    apply cgroup_or_placeholder_field. by apply c_string_field_length.
Qed.

Lemma step_fields_well_formed s e :
  fields_well_formed s → fields_well_formed (step s e).
Proof.
  intros [Hps Hpf]. destruct e as [k ctx|k]; cbn [step]; split; cbn [hotspot page_faults];
    try done.
  - rewrite handle_sched_switch_unfold. cbn [snd cpu_hotspot.pid_stats].
    set (st := cpu_hotspot.cpu_state (hotspot s) (kernel.cpu k)).
    intros pid ps'.
    destruct (decide (pid = cpu_state.pid st)) as [->|Hne];
      [|rewrite account_other by done; apply Hps].
    destruct (decide (cpu_state.pid st = 0)) as [H0|H0];
      [rewrite account_idle by done; apply Hps|].
    destruct (cpu_hotspot.pid_stats (hotspot s) !! cpu_state.pid st) as [ps|] eqn:Hk.
    + rewrite (account_present _ _ _ _ ps) by done. rewrite lookup_insert_eq.
      intros [= <-]. apply accounted_fields. by eapply Hps.
    + rewrite account_absent by done. rewrite update_elem_lookup.
      case_decide; [|done]. intros [= <-]. apply first_seen_fields.
  - unfold memory_faults.handle_mm_fault_kprobe. intros pid entry'.
    destruct (decide (pid = fault_pid k)) as [->|Hne];
      [|rewrite record_fault_other by done; apply Hpf].
    destruct (decide (fault_pid k = 0)) as [H0|H0];
      [rewrite record_fault_idle by done; apply Hpf|].
    destruct (page_faults s !! fault_pid k) as [entry|] eqn:Hk.
    + rewrite (record_fault_present _ _ entry) by done. rewrite lookup_insert_eq.
      intros [= <-]. unfold faulted. cbn [fault_stat.cgroup].
      destruct (first_is_nul _); [|by eapply Hpf].
      apply cgroup_or_placeholder_field. eapply c_string_field_length, Hpf. done.
    + rewrite record_fault_absent by done. rewrite update_elem_lookup.
      case_decide; [|done]. intros [= <-]. unfold first_fault. cbn [fault_stat.cgroup].
      by apply cgroup_or_placeholder_field.
Qed.

Lemma boot_fields_well_formed : fields_well_formed boot.
Proof. split; intros pid x Hk; cbn in Hk; by rewrite lookup_empty in Hk. Qed.

(** X4. Along every sequence of events every [comm] field stays a 16-byte
    and every [cgroup] field a 64-byte C string field: NUL-terminated inside
    its array and NUL-padded, so a reader can take either as a string.  It
    holds on the maps as created. *)
Theorem X4_fields_stay_c_strings (s : system) (evs : list event) :
  fields_well_formed s → fields_well_formed (run s evs).
Proof.
  revert s. induction evs as [|e evs IH]; intros s Hs; [done|].
  rewrite run_cons. apply IH. destruct Hs as [Hps Hpf].
  by apply step_fields_well_formed.
Qed.

Lemma X4_witness :
  fields_well_formed boot
  ∧ fields_well_formed
      (run boot [sample_switch 100 3 42; sample_switch 150 42 7;
                 sample_fault (detached_task 9)]).
Proof.
  split; [exact boot_fields_well_formed|].
  apply X4_fields_stay_c_strings. exact boot_fields_well_formed.
Defined.

(** ** Capacity and persistence *)

Section update_elem_size.
Context {V : Type}.
Implicit Types (m : gmap Z V).

Lemma update_elem_size max m key value :
  Z.of_nat (size m) ≤ max →
  Z.of_nat (size (bpf_map_update_elem max m key value).2) ≤ max.
Proof.
  intros Hsz. unfold bpf_map_update_elem.
  destruct (m !! key) as [v|] eqn:Hk; cbn [snd].
  - by rewrite map_size_insert_Some by (by eexists).
  - case_decide; cbn [snd]; [|done]. rewrite map_size_insert_None by done. lia.
Qed.

Lemma update_elem_keeps max m key value key' :
  is_Some (m !! key') → is_Some ((bpf_map_update_elem max m key value).2 !! key').
Proof.
  intros Hk'. destruct (decide (key' = key)) as [->|Hne].
  - rewrite update_elem_present by done. cbn [snd]. rewrite lookup_insert_eq. by eexists.
  - by rewrite update_elem_other.
Qed.
End update_elem_size.

Lemma count_contention_size victim aggressor (m : gmap Z Z) :
  Z.of_nat (size m) ≤ cpu_hotspot.cpu_contention_max_entries →
  Z.of_nat (size (cpu_hotspot.count_contention victim aggressor m))
  ≤ cpu_hotspot.cpu_contention_max_entries.
Proof.
  intros Hsz.
  destruct (decide (victim = 0)) as [?|Hv]; [by rewrite count_contention_zero by auto|].
  destruct (decide (aggressor = 0)) as [?|Ha]; [by rewrite count_contention_zero by auto|].
  rewrite count_contention_nonzero by done.
  destruct (m !! pair_key victim aggressor) as [cnt|] eqn:Hk.
  - by rewrite map_size_insert_Some by (by eexists).
  - by apply update_elem_size.
Qed.

Lemma count_contention_keeps victim aggressor (m : gmap Z Z) key :
  is_Some (m !! key) →
  is_Some (cpu_hotspot.count_contention victim aggressor m !! key).
Proof.
  intros Hkey.
  destruct (decide (key = pair_key victim aggressor)) as [->|Hne];
    [|by rewrite count_contention_other].
  destruct (decide (victim = 0)) as [?|Hv]; [by rewrite count_contention_zero by auto|].
  destruct (decide (aggressor = 0)) as [?|Ha]; [by rewrite count_contention_zero by auto|].
  rewrite count_contention_at by done. destruct Hkey as [cnt ->]. by eexists.
Qed.

Lemma account_size k ts st (m : gmap Z pid_stat.t) :
  Z.of_nat (size m) ≤ cpu_hotspot.pid_stats_max_entries →
  Z.of_nat (size (cpu_hotspot.account k ts st m)) ≤ cpu_hotspot.pid_stats_max_entries.
Proof.
  intros Hsz.
  destruct (decide (cpu_state.pid st = 0)) as [H0|H0]; [by rewrite account_idle|].
  destruct (m !! cpu_state.pid st) as [ps|] eqn:Hk.
  - rewrite (account_present _ _ _ _ ps) by done. by rewrite map_size_insert_Some by (by eexists).
  - rewrite account_absent by done. by apply update_elem_size.
Qed.

Lemma record_fault_size k (m : gmap Z fault_stat.t) :
  Z.of_nat (size m) ≤ memory_faults.page_faults_max_entries →
  Z.of_nat (size (memory_faults.record_fault k m).2)
  ≤ memory_faults.page_faults_max_entries.
Proof.
  intros Hsz.
  destruct (decide (fault_pid k = 0)) as [H0|H0]; [by rewrite record_fault_idle|].
  destruct (m !! fault_pid k) as [entry|] eqn:Hk.
  - rewrite (record_fault_present _ _ entry) by done.
    by rewrite map_size_insert_Some by (by eexists).
  - rewrite record_fault_absent by done. by apply update_elem_size.
Qed.

Lemma step_within_capacity s e : within_capacity s → within_capacity (step s e).
Proof.
  intros (Hps & Hcc & Hpf). destruct e as [k ctx|k]; cbn [step]; unfold within_capacity;
    cbn [hotspot page_faults].
  - rewrite handle_sched_switch_unfold.
    cbn [snd cpu_hotspot.pid_stats cpu_hotspot.cpu_contention].
    split; [by apply account_size|]. split; [by apply count_contention_size|done].
  - split; [done|]. split; [done|]. by apply record_fault_size.
Qed.

Lemma step_keeps_keys s e :
  (∀ key, is_Some (cpu_hotspot.pid_stats (hotspot s) !! key) →
          is_Some (cpu_hotspot.pid_stats (hotspot (step s e)) !! key))
  ∧ (∀ key, is_Some (cpu_hotspot.cpu_contention (hotspot s) !! key) →
            is_Some (cpu_hotspot.cpu_contention (hotspot (step s e)) !! key))
  ∧ (∀ key, is_Some (page_faults s !! key) → is_Some (page_faults (step s e) !! key)).
Proof.
  split; [|split]; intros key [x Hk].
  - destruct (step_pid_stats_frozen s e key x Hk) as (x' & Hk' & _). by eexists.
  - destruct e as [k ctx|k]; cbn [step hotspot]; [|by eexists].
    rewrite handle_sched_switch_unfold. cbn [snd cpu_hotspot.cpu_contention].
    apply count_contention_keeps. by eexists.
  - destruct (step_page_faults_frozen s e key x Hk) as (x' & Hk' & _). by eexists.
Qed.

Lemma run_within_capacity evs : ∀ s, within_capacity s → within_capacity (run s evs).
Proof.
  induction evs as [|e evs IH]; intros s Hs; [done|].
  rewrite run_cons. by apply IH, step_within_capacity.
Qed.

Lemma run_keeps_keys evs : ∀ s,
  (∀ key, is_Some (cpu_hotspot.pid_stats (hotspot s) !! key) →
          is_Some (cpu_hotspot.pid_stats (hotspot (run s evs)) !! key))
  ∧ (∀ key, is_Some (cpu_hotspot.cpu_contention (hotspot s) !! key) →
            is_Some (cpu_hotspot.cpu_contention (hotspot (run s evs)) !! key))
  ∧ (∀ key, is_Some (page_faults s !! key) → is_Some (page_faults (run s evs) !! key)).
Proof.
  induction evs as [|e evs IH]; intros s; [done|].
  rewrite run_cons. destruct (IH (step s e)) as (I1 & I2 & I3).
  destruct (step_keeps_keys s e) as (S1 & S2 & S3).
  split; [|split]; intros key Hk; [apply I1, S1 | apply I2, S2 | apply I3, S3]; done.
Qed.

(** X5. The programs never delete and never overfill: over every sequence of
    events a key that has an entry keeps one, in each of the three hash maps,
    and maps that hold at most [max_entries] entries (10240, 2048, 4096) still
    do afterwards. *)
Theorem X5_bounded_and_persistent (s : system) (evs : list event) :
  within_capacity s →
  within_capacity (run s evs)
  ∧ (∀ key, is_Some (cpu_hotspot.pid_stats (hotspot s) !! key) →
            is_Some (cpu_hotspot.pid_stats (hotspot (run s evs)) !! key))
  ∧ (∀ key, is_Some (cpu_hotspot.cpu_contention (hotspot s) !! key) →
            is_Some (cpu_hotspot.cpu_contention (hotspot (run s evs)) !! key))
  ∧ (∀ key, is_Some (page_faults s !! key) → is_Some (page_faults (run s evs) !! key)).
Proof.
  intros Hs. split; [by apply run_within_capacity|]. apply run_keeps_keys.
Qed.

Lemma X5_witness :
  let s := run boot [sample_switch 100 3 42; sample_switch 150 42 7] in
  let evs := [sample_switch 400 7 42; sample_fault (detached_task 9)] in
  within_capacity (run s evs)
  ∧ is_Some (cpu_hotspot.pid_stats (hotspot (run s evs)) !! 42).
Proof.
  intros s evs.
  assert (within_capacity s) as Hs by (repeat split; vm_compute; discriminate).
  destruct (X5_bounded_and_persistent s evs Hs) as (Hcap & Hps & _).
  split; [exact Hcap|]. apply Hps. vm_compute. by eexists.
Defined.

(** ** Counting faults *)









(** ** Counting handoffs *)

Lemma step_contention_of s e victim aggressor :
  0 < victim < 2 ^ 32 → 0 < aggressor < 2 ^ 32 →
  contention_refused s e = false →
  contention_of (step s e) (pair_key victim aggressor)
  = if is_handoff victim aggressor e
    then to_u64 (contention_of s (pair_key victim aggressor) + 1)
    else contention_of s (pair_key victim aggressor).
Proof.
  intros Hv Ha Href. destruct e as [k ctx|k]; [|done].
  unfold contention_of, is_handoff. cbn [step hotspot].
  rewrite handle_sched_switch_unfold. cbn [snd cpu_hotspot.cpu_contention].
  set (v := to_u32 (trace_event_raw_sched_switch.prev_pid ctx)) in *.
  set (a := to_u32 (trace_event_raw_sched_switch.next_pid ctx)) in *.
  destruct (decide (v = victim ∧ a = aggressor)) as [[Ev Ea]|Hne].
  - rewrite !bool_decide_eq_true_2 by done. cbn [andb].
    rewrite <- Ev, <- Ea in *. clear Ev Ea.
    rewrite count_contention_at by lia.
    destruct (cpu_hotspot.cpu_contention (hotspot s) !! pair_key v a) as [cnt|] eqn:Hk;
      [done|].
    unfold contention_refused in Href. cbn zeta in Href. fold v a in Href.
    rewrite Hk in Href.
    rewrite (bool_decide_eq_true_2 (v ≠ 0)) in Href by lia.
    rewrite (bool_decide_eq_true_2 (a ≠ 0)) in Href by lia.
    rewrite (bool_decide_eq_true_2 (None = None)) in Href by done.
    cbn [andb] in Href. apply bool_decide_eq_false in Href.
    rewrite decide_True by lia. done.
  - assert (bool_decide (v = victim) && bool_decide (a = aggressor) = false) as ->.
    { apply andb_false_iff. destruct (decide (v = victim)) as [?|Hv'].
      - right. apply bool_decide_eq_false. intros ?. by apply Hne.
      - left. by apply bool_decide_eq_false. }
    rewrite count_contention_other; [done|].
    intros Heq.
    apply pair_key_inj in Heq as [? ?]; [|lia|lia|apply to_u32_range..].
    by apply Hne.
Qed.

Lemma step_contention_of_range s e key :
  0 ≤ contention_of s key < 2 ^ 64 → 0 ≤ contention_of (step s e) key < 2 ^ 64.
Proof.
  intros Hr. destruct e as [k ctx|k]; [|done].
  unfold contention_of in *. cbn [step hotspot].
  rewrite handle_sched_switch_unfold. cbn [snd cpu_hotspot.cpu_contention].
  set (v := to_u32 (trace_event_raw_sched_switch.prev_pid ctx)).
  set (a := to_u32 (trace_event_raw_sched_switch.next_pid ctx)).
  destruct (decide (key = pair_key v a)) as [->|Hne];
    [|by rewrite count_contention_other by done].
  destruct (decide (v = 0)) as [?|Hv]; [by rewrite count_contention_zero by auto|].
  destruct (decide (a = 0)) as [?|Ha]; [by rewrite count_contention_zero by auto|].
  rewrite count_contention_at by done.
  destruct (cpu_hotspot.cpu_contention (hotspot s) !! pair_key v a) as [cnt|].
  - cbn. apply to_u64_range.
  - case_decide; cbn; lia.
Qed.

Lemma run_contention_of_range evs : ∀ s key,
  0 ≤ contention_of s key < 2 ^ 64 → 0 ≤ contention_of (run s evs) key < 2 ^ 64.
Proof.
  induction evs as [|e evs IH]; intros s key Hr; [done|].
  rewrite run_cons. apply IH. by apply step_contention_of_range.
Qed.

Lemma run_contention_of victim aggressor evs : ∀ s,
  0 < victim < 2 ^ 32 → 0 < aggressor < 2 ^ 32 →
  no_contention_refused s evs →
  to_u64 (contention_of (run s evs) (pair_key victim aggressor))
  = to_u64 (contention_of s (pair_key victim aggressor)
            + handoff_count victim aggressor evs).
Proof.
  induction evs as [|e evs IH]; intros s Hv Ha Href.
  { cbn. by rewrite Z.add_0_r. }
  destruct Href as [Hr Href]. rewrite run_cons, IH by done.
  rewrite step_contention_of by done. cbn [handoff_count].
  destruct (is_handoff victim aggressor e).
  - rewrite to_u64_add_l. f_equal. lia.
  - f_equal.
Qed.

Lemma handoff_count_bounds victim aggressor evs :
  0 ≤ handoff_count victim aggressor evs ≤ Z.of_nat (length evs).
Proof.
  induction evs as [|e evs IH]; cbn [handoff_count length]; [lia|].
  destruct (is_handoff victim aggressor e); lia.
Qed.

(** X7. Over a sequence of events on fresh maps, from whatever CPUs, during
    which no insert into [cpu_contention] is refused, the counter at the key
    of a pair of non-zero ids is the number of switches from the first to
    the second, in [u64]; it is that number itself for fewer than 2^64
    events. *)
Theorem X7_handoffs_are_counted (evs : list event) (victim aggressor : Z) :
  0 < victim < 2 ^ 32 → 0 < aggressor < 2 ^ 32 →
  no_contention_refused boot evs →
  contention_of (run boot evs) (pair_key victim aggressor)
  = to_u64 (handoff_count victim aggressor evs)
  ∧ (Z.of_nat (length evs) < 2 ^ 64 →
     contention_of (run boot evs) (pair_key victim aggressor)
     = handoff_count victim aggressor evs).
Proof.
  intros Hv Ha Href.
  assert (contention_of (run boot evs) (pair_key victim aggressor)
          = to_u64 (handoff_count victim aggressor evs)) as Heq.
  { pose proof (run_contention_of victim aggressor evs boot Hv Ha Href) as H.
    change (contention_of boot (pair_key victim aggressor)) with 0 in H.
    rewrite Z.add_0_l in H. rewrite <- H. symmetry. apply to_u64_small.
    by apply run_contention_of_range. }
  split; [exact Heq|]. intros Hlen. rewrite Heq. apply to_u64_small.
  pose proof (handoff_count_bounds victim aggressor evs). lia.
Qed.

Lemma X7_witness :
  let evs := [sample_switch 100 5 7; sample_switch 150 7 5; sample_switch 400 5 7;
              sample_switch 450 7 0; sample_switch 500 0 5; sample_switch 600 5 7] in
  contention_of (run boot evs) (pair_key 5 7) = 3
  ∧ contention_of (run boot evs) (pair_key 7 5) = 1.
Proof.
  intros evs.
  assert (no_contention_refused boot evs) as Href by (vm_compute; tauto).
  split.
  - destruct (X7_handoffs_are_counted evs 5 7) as (_ & H); [lia | lia | done |].
    rewrite H by (cbn; lia). vm_compute. reflexivity.
  - destruct (X7_handoffs_are_counted evs 7 5) as (_ & H); [lia | lia | done |].
    rewrite H by (cbn; lia). vm_compute. reflexivity.
Defined.

(** ** One key per event *)

(** X8. A run of [handle_sched_switch] changes [pid_stats] at no key but the
    pid stored in the slot of its CPU, and not at all when that pid is 0; what
    it writes there does not depend on the [prev_pid] and [next_pid] of the
    event.  A run of [record_fault] changes [page_faults] at no key but the
    current thread-group id, and not at all when that is 0. *)
Theorem X8_one_key_per_event :
  (∀ k ctx (m : cpu_hotspot.maps),
     let st := cpu_hotspot.cpu_state m (kernel.cpu k) in
     let after := cpu_hotspot.pid_stats (cpu_hotspot.handle_sched_switch k ctx m).2 in
     (∀ key, key ≠ cpu_state.pid st → after !! key = cpu_hotspot.pid_stats m !! key)
     ∧ (cpu_state.pid st = 0 → after = cpu_hotspot.pid_stats m)
     ∧ (∀ ctx', cpu_hotspot.pid_stats (cpu_hotspot.handle_sched_switch k ctx' m).2
                = after))
  ∧ (∀ k (m : gmap Z fault_stat.t),
       let after := (memory_faults.record_fault k m).2 in
       (∀ key, key ≠ fault_pid k → after !! key = m !! key)
       ∧ (fault_pid k = 0 → after = m)).
Proof.
  split.
  - intros k ctx m st after. subst after.
    rewrite handle_sched_switch_unfold. cbn [snd cpu_hotspot.pid_stats]. fold st.
    split; [intros key Hne; by apply account_other|].
    split; [intros H0; by apply account_idle|].
    intros ctx'. by rewrite handle_sched_switch_unfold.
  - intros k m after. subst after.
    split; [intros key Hne; by apply record_fault_other|].
    intros H0. by apply record_fault_idle.
Qed.

Lemma X8_witness :
  let k := kernel.mk 400 0%nat (Some (detached_task 7)) in
  let m := cpu_hotspot.mk (λ _, cpu_state.mk 42 150)
             {[ 7 := pid_stat.zero ]} ∅ in
  cpu_hotspot.pid_stats
    (cpu_hotspot.handle_sched_switch k (trace_event_raw_sched_switch.mk 7 9) m).2 !! 7
  = Some pid_stat.zero
  ∧ (memory_faults.record_fault (kernel.mk 0 0%nat (Some (detached_task 0)))
       {[ 9 := fault_stat.zero ]}).2
    = {[ 9 := fault_stat.zero ]}.
Proof.
  intros k m. destruct X8_one_key_per_event as [Hps Hpf]. split.
  - destruct (Hps k (trace_event_raw_sched_switch.mk 7 9) m) as (Hother & _).
    rewrite Hother; [reflexivity|]. cbn. lia.
  - destruct (Hpf (kernel.mk 0 0%nat (Some (detached_task 0)))
                {[ 9 := fault_stat.zero ]}) as (_ & Hidle).
    apply Hidle. vm_compute. reflexivity.
Defined.

(** ** CPU time over several CPUs *)

Lemma sum_over_ext f g cpus :
  (∀ u, u ∈ cpus → f u = g u) → sum_over f cpus = sum_over g cpus.
Proof.
  induction cpus as [|u cpus IH]; intros Hfg; [done|]. cbn [sum_over].
  rewrite Hfg by apply list_elem_of_here. rewrite IH; [done|].
  intros v Hv. apply Hfg. by apply list_elem_of_further.
Qed.

Lemma sum_over_bump f g c d cpus :
  NoDup cpus → c ∈ cpus → f c = d + g c → (∀ u, u ≠ c → f u = g u) →
  sum_over f cpus = d + sum_over g cpus.
Proof.
  intros Hnd Hc Hfc Hother. induction cpus as [|u cpus IH]; [by apply not_elem_of_nil in Hc|].
  pose proof (NoDup_cons_1_1 _ _ Hnd) as Hu. apply NoDup_cons_1_2 in Hnd.
  cbn [sum_over].
  destruct (decide (u = c)) as [->|Hne].
  - rewrite Hfc. rewrite (sum_over_ext f g cpus); [lia|].
    intros v Hv. apply Hother. intros ->. done.
  - apply elem_of_cons in Hc as [->|Hc]; [done|].
    rewrite (Hother u Hne), IH by done. lia.
Qed.

Lemma step_slots k ctx s :
  cpu_hotspot.cpu_state (hotspot (step s (sched_switch k ctx)))
  = <[cpu_of (sched_switch k ctx) :=
        cpu_state.mk (next_of (sched_switch k ctx)) (ts_of (sched_switch k ctx))]>
      (cpu_hotspot.cpu_state (hotspot s)).
Proof. reflexivity. Qed.

Lemma run_charged_time x evs : ∀ s,
  x ≠ 0 → Forall is_switch evs → never_saturates s evs →
  to_u64 (cpu_time_of (run s evs) x)
  = to_u64 (cpu_time_of s x
            + charged_time x (cpu_hotspot.cpu_state (hotspot s)) evs).
Proof.
  induction evs as [|e evs IH]; intros s Hx Hsw Hsat.
  { cbn. by rewrite Z.add_0_r. }
  inversion_clear Hsw as [|? ? He Hsw']. destruct Hsat as [Hs Hsat].
  destruct e as [k ctx|k]; [|done].
  rewrite run_cons, IH by done. rewrite step_slots.
  rewrite step_cpu_time by done. cbn zeta. cbn [charged_time cpu_of ts_of].
  case_decide as Hp.
  - rewrite to_u64_add_l. f_equal. lia.
  - f_equal.
Qed.

Lemma charged_time_split x cpus evs : ∀ slots,
  NoDup cpus → Forall (λ e, cpu_of e ∈ cpus) evs →
  charged_time x slots evs
  = sum_over (λ u, outgoing_time_from x (cpu_state.pid (slots u))
                     (cpu_state.ts (slots u)) (on_cpu u evs)) cpus.
Proof.
  induction evs as [|e evs IH]; intros slots Hnd Hin.
  { cbn [charged_time]. induction cpus as [|u cpus IHc]; [done|].
    cbn [sum_over]. apply NoDup_cons_1_2 in Hnd.
    by rewrite <- IHc. }
  inversion_clear Hin as [|? ? Hc Hin']. cbn [charged_time].
  rewrite (IH _ Hnd Hin').
  symmetry. apply (sum_over_bump _ _ (cpu_of e)); [done..| |].
  - unfold on_cpu. rewrite filter_cons_True by done.
    cbn [outgoing_time_from]. by rewrite fn_lookup_insert.
  - intros u Hne. unfold on_cpu. rewrite filter_cons_False by done.
    by rewrite fn_lookup_insert_ne.
Qed.

(** X9. Over context switches delivered on several CPUs in any interleaving,
    to fresh maps and with no insert into [pid_stats] refused, the CPU time
    of a non-zero id is the sum, over the CPUs, of its outgoing time in the
    events of that CPU alone (in [u64]): the slots keep the CPUs apart and
    the order between CPUs does not matter. *)
Theorem X9_cpu_time_over_cpus (cpus : list nat) (evs : list event) (x : Z) :
  x ≠ 0 → NoDup cpus →
  Forall (λ e, is_switch e ∧ cpu_of e ∈ cpus) evs →
  never_saturates boot evs →
  cpu_time_of (run boot evs) x
  = to_u64 (sum_over (λ u, outgoing_time x (on_cpu u evs)) cpus).
Proof.
  intros Hx Hnd Hevs Hsat.
  assert (Forall is_switch evs) as Hsw
    by (eapply Forall_impl; [|exact Hevs]; by intros e [? ?]).
  assert (Forall (λ e, cpu_of e ∈ cpus) evs) as Hin
    by (eapply Forall_impl; [|exact Hevs]; by intros e [? ?]).
  pose proof (run_charged_time x evs boot Hx Hsw Hsat) as H.
  change (cpu_time_of boot x) with 0 in H. rewrite Z.add_0_l in H.
  rewrite (charged_time_split x cpus evs _ Hnd Hin) in H.
  rewrite (sum_over_ext _ (λ u, outgoing_time x (on_cpu u evs))) in H.
  2: { intros u _. by apply outgoing_time_from_boot. }
  rewrite <- H. symmetry. apply to_u64_small. by apply run_cpu_time_range.
Qed.

Lemma X9_witness :
  let sw (c : nat) (t prev next : Z) :=
    sched_switch (kernel.mk t c (Some (detached_task prev)))
      (trace_event_raw_sched_switch.mk prev next) in
  let evs := [sw 0%nat 100 3 42; sw 1%nat 110 4 7; sw 0%nat 150 42 7;
              sw 1%nat 170 7 42; sw 1%nat 200 42 4; sw 0%nat 260 7 3] in
  cpu_time_of (run boot evs) 42 = (150 - 100) + (200 - 170)
  ∧ cpu_time_of (run boot evs) 7 = (260 - 150) + (170 - 110).
Proof.
  intros sw evs.
  assert (NoDup [0; 1]%nat) as Hnd
    by (apply NoDup_cons_2; [rewrite elem_of_cons, elem_of_nil; lia|];
        apply NoDup_singleton).
  assert (Forall (λ e, is_switch e ∧ cpu_of e ∈ [0; 1]%nat) evs) as Hevs
    by (repeat (constructor; [split; [exact I | cbn; rewrite !elem_of_cons; lia]|]);
        constructor).
  assert (never_saturates boot evs) as Hsat by (vm_compute; tauto).
  split.
  - rewrite (X9_cpu_time_over_cpus [0; 1]%nat evs 42) by done.
    vm_compute. reflexivity.
  - rewrite (X9_cpu_time_over_cpus [0; 1]%nat evs 7) by done.
    vm_compute. reflexivity.
Defined.

(** ** The placeholder is in-band *)

(** X10. The field does not record whether the resolution succeeded: a task
    whose cgroup is named ["n/a"] gets the very bytes a failed resolution
    gets. *)
Theorem X10_placeholder_is_ambiguous (k k' : kernel.t) (dst dst' : list byte) (s : list byte) :
  length dst = 64%nat → length dst' = 64%nat →
  leaf_node k ≫= resolved_name = Some s → cstr s = placeholder →
  (snapshot_cgroup k' dst' 64).1 = false →
  (snapshot_cgroup k dst 64).1 = true
  ∧ cgroup_or_placeholder k dst 64 = cgroup_or_placeholder k' dst' 64.
Proof.
  intros Hlen Hlen' Hname Hs Hfail.
  rewrite (cgroup_or_placeholder_fail k' dst') by done.
  unfold cgroup_or_placeholder. rewrite snapshot_cgroup_bytes by done. cbn [fst snd].
  unfold resolved_bytes. rewrite Hname, Hs.
  rewrite bool_decide_eq_true_2 by (by eexists). split; [done|].
  rewrite (drop_ge dst 64) by lia. reflexivity.
Qed.

Lemma X10_witness :
  let named := kernel.mk 0 0%nat
                 (Some (sample_task 1 (Some (kstr_at (list_byte_of_string "n/a"))))) in
  let lost := kernel.mk 0 0%nat (Some (detached_task 2)) in
  (snapshot_cgroup named (zeroed 64) 64).1 = true
  ∧ cgroup_or_placeholder named (zeroed 64) 64
    = cgroup_or_placeholder lost (zeroed 64) 64.
Proof.
  intros named lost.
  apply (X10_placeholder_is_ambiguous named lost (zeroed 64) (zeroed 64)
           (list_byte_of_string "n/a")); reflexivity.
Defined.

(** ** The slot after a run *)

Lemma on_cpu_snoc u evs e :
  on_cpu u (evs ++ [e]) = on_cpu u evs ++ (if decide (cpu_of e = u) then [e] else []).
Proof.
  unfold on_cpu. by rewrite list.filter_app.
Qed.

Lemma run_snoc s evs e : run s (evs ++ [e]) = step (run s evs) e.
Proof. by rewrite run_app. Qed.

(** X11. After context switches delivered on any CPUs, the slot of a CPU
    holds the next pid and the timestamp of the last switch delivered on that
    CPU, and what it held before when none was. *)
Theorem X11_slot_holds_last_switch (u : nat) (s : system) (evs : list event) :
  Forall is_switch evs →
  cpu_hotspot.cpu_state (hotspot (run s evs)) u
  = match list.last (on_cpu u evs) with
    | Some e => cpu_state.mk (next_of e) (ts_of e)
    | None => cpu_hotspot.cpu_state (hotspot s) u
    end.
Proof.
  revert s.
  induction evs as [|e evs IH] using rev_ind; intros s Hsw; [done|].
  apply Forall_app in Hsw as [Hsw He]. inversion_clear He as [|? ? He' _].
  destruct e as [k ctx|k]; [|done].
  rewrite run_snoc, on_cpu_snoc. rewrite step_slots.
  case_decide as Hc.
  - rewrite last_snoc. rewrite <- Hc. by rewrite fn_lookup_insert.
  - rewrite app_nil_r. rewrite fn_lookup_insert_ne by done. by apply IH.
Qed.

Lemma X11_witness :
  let sw (c : nat) (t prev next : Z) :=
    sched_switch (kernel.mk t c (Some (detached_task prev)))
      (trace_event_raw_sched_switch.mk prev next) in
  let evs := [sw 0%nat 100 3 42; sw 1%nat 110 4 7; sw 0%nat 150 42 0; sw 1%nat 170 7 42] in
  cpu_hotspot.cpu_state (hotspot (run boot evs)) 0%nat = cpu_state.mk 0 150
  ∧ cpu_hotspot.cpu_state (hotspot (run boot evs)) 2%nat = cpu_state.mk 0 0.
Proof.
  intros sw evs.
  assert (Forall is_switch evs) as Hsw by (repeat constructor).
  split.
  - rewrite (X11_slot_holds_last_switch 0 boot evs Hsw). reflexivity.
  - rewrite (X11_slot_holds_last_switch 2 boot evs Hsw). reflexivity.
Defined.

(** ** A map that is not full has lost nothing *)

Section update_elem_grows.
Context {V : Type}.
Implicit Types (m : gmap Z V).

Lemma insert_grows m key value : (size m ≤ size (<[key := value]> m))%nat.
Proof.
  destruct (m !! key) as [v|] eqn:Hk.
  - rewrite map_size_insert_Some by (by eexists). lia.
  - rewrite map_size_insert_None by done. lia.
Qed.

Lemma update_elem_grows max m key value :
  (size m ≤ size (bpf_map_update_elem max m key value).2)%nat.
Proof.
  unfold bpf_map_update_elem. destruct (m !! key); [apply insert_grows|].
  case_decide; cbn [snd]; [apply insert_grows | lia].
Qed.
End update_elem_grows.

Lemma step_sizes_grow s e :
  (size (cpu_hotspot.pid_stats (hotspot s))
   ≤ size (cpu_hotspot.pid_stats (hotspot (step s e))))%nat
  ∧ (size (cpu_hotspot.cpu_contention (hotspot s))
     ≤ size (cpu_hotspot.cpu_contention (hotspot (step s e))))%nat
  ∧ (size (page_faults s) ≤ size (page_faults (step s e)))%nat.
Proof.
  destruct e as [k ctx|k]; cbn [step hotspot page_faults].
  - rewrite handle_sched_switch_unfold.
    cbn [snd cpu_hotspot.pid_stats cpu_hotspot.cpu_contention].
    split; [|split; [|done]].
    + unfold cpu_hotspot.account. case_bool_decide; [|done].
      unfold bpf_map_lookup_elem. destruct (_ !! _); [apply insert_grows|].
      apply update_elem_grows.
    + unfold cpu_hotspot.count_contention. destruct (_ && _); [|done].
      unfold bpf_map_lookup_elem. destruct (_ !! _); [apply insert_grows|].
      apply update_elem_grows.
  - split; [done|]. split; [done|].
    unfold memory_faults.handle_mm_fault_kprobe, memory_faults.record_fault.
    case_bool_decide; [done|]. unfold bpf_map_lookup_elem.
    destruct (_ !! _); cbn [snd]; [apply insert_grows | apply update_elem_grows].
Qed.

Lemma run_sizes_grow evs : ∀ s,
  (size (cpu_hotspot.pid_stats (hotspot s))
   ≤ size (cpu_hotspot.pid_stats (hotspot (run s evs))))%nat
  ∧ (size (cpu_hotspot.cpu_contention (hotspot s))
     ≤ size (cpu_hotspot.cpu_contention (hotspot (run s evs))))%nat
  ∧ (size (page_faults s) ≤ size (page_faults (run s evs)))%nat.
Proof.
  induction evs as [|e evs IH]; intros s; [done|].
  rewrite run_cons. destruct (IH (step s e)) as (I1 & I2 & I3).
  destruct (step_sizes_grow s e) as (S1 & S2 & S3). lia.
Qed.

Lemma not_full_never_saturates evs : ∀ s,
  Z.of_nat (size (cpu_hotspot.pid_stats (hotspot (run s evs))))
    < cpu_hotspot.pid_stats_max_entries →
  never_saturates s evs.
Proof.
  induction evs as [|e evs IH]; intros s Hsz; [done|].
  rewrite run_cons in Hsz. split; [|by apply IH].
  destruct (run_sizes_grow evs (step s e)) as (G1 & _).
  destruct (step_sizes_grow s e) as (S1 & _).
  destruct e as [k ctx|k]; [|done]. unfold saturated.
  apply andb_false_iff. right. apply bool_decide_eq_false. lia.
Qed.

Lemma not_full_no_contention_refused evs : ∀ s,
  Z.of_nat (size (cpu_hotspot.cpu_contention (hotspot (run s evs))))
    < cpu_hotspot.cpu_contention_max_entries →
  no_contention_refused s evs.
Proof.
  induction evs as [|e evs IH]; intros s Hsz; [done|].
  rewrite run_cons in Hsz. split; [|by apply IH].
  destruct (run_sizes_grow evs (step s e)) as (_ & G2 & _).
  destruct (step_sizes_grow s e) as (_ & S2 & _).
  destruct e as [k ctx|k]; [|done]. unfold contention_refused. cbn zeta.
  apply andb_false_iff. right. apply bool_decide_eq_false. lia.
Qed.

Lemma not_full_no_fault_refused evs : ∀ s,
  Z.of_nat (size (page_faults (run s evs))) < memory_faults.page_faults_max_entries →
  no_fault_refused s evs.
Proof.
  induction evs as [|e evs IH]; intros s Hsz; [done|].
  rewrite run_cons in Hsz. split; [|by apply IH].
  destruct (run_sizes_grow evs (step s e)) as (_ & _ & G3).
  destruct (step_sizes_grow s e) as (_ & _ & S3).
  destruct e as [k ctx|k]; [done|]. unfold fault_refused.
  apply andb_false_iff. right. apply bool_decide_eq_false. lia.
Qed.

(** X12. The maps only grow, so a map found with fewer than [max_entries]
    entries after a sequence of events had room throughout: no insert into it
    was refused and nothing was lost from its counters. *)
Theorem X12_not_full_lost_nothing (s : system) (evs : list event) :
  (Z.of_nat (size (cpu_hotspot.pid_stats (hotspot (run s evs))))
     < cpu_hotspot.pid_stats_max_entries → never_saturates s evs)
  ∧ (Z.of_nat (size (cpu_hotspot.cpu_contention (hotspot (run s evs))))
       < cpu_hotspot.cpu_contention_max_entries → no_contention_refused s evs)
  ∧ (Z.of_nat (size (page_faults (run s evs)))
       < memory_faults.page_faults_max_entries → no_fault_refused s evs).
Proof.
  split; [apply not_full_never_saturates|].
  split; [apply not_full_no_contention_refused | apply not_full_no_fault_refused].
Qed.

Lemma X12_witness :
  let evs := [sample_switch 100 5 7; sample_switch 150 7 5;
              sample_fault (detached_task 9)] in
  never_saturates boot evs ∧ no_contention_refused boot evs ∧ no_fault_refused boot evs.
Proof.
  intros evs. destruct (X12_not_full_lost_nothing boot evs) as (H1 & H2 & H3).
  split; [apply H1; by vm_compute|]. split; [apply H2; by vm_compute|].
  apply H3. by vm_compute.
Defined.
